(** * flexx/app/_asset.py: dependency resolution, assets and bundles

    A shallow embedding of [get_mod_name], [module_is_package],
    [solve_dependencies], [Asset] and [Bundle] from [flexx/app/_asset.py],
    with the properties of the dependency-ordered bundler stated and proved
    over it.

    Conventions of the embedding:
    - Python [str] is [string]; a Python list is a [list]; a [dict] keyed by
      names is a [gmap string _]; a [set] of names is a [gset string].
    - A raised exception is a value [Raise e]; a [while] loop is a fixpoint
      on a fuel argument, with the outcome [OutOfFuel] when the fuel is
      used up (shown never to happen with the fuel the entry points give).
    - [logger.warn] appends to a log that is returned next to the outcome. *)

From Stdlib Require Import Ascii.
From stdpp Require Import gmap strings list fin_maps sorting relations.

(* stdpp's solvers clear hypotheses that may already be gone. *)
Set Warnings "-clear-no-such-hyp".

(** ** Exceptions and outcomes *)

Inductive exn_class :=
  | RuntimeError | TypeError | ValueError | KeyError | IndexError
  | AssertionError.

(** An exception: its class, the message template as written in the source
    and the values substituted into the template ([template % args]). *)
Record exn := Exn {
  exn_cls : exn_class;
  exn_template : string;
  exn_args : list string
}.

Inductive outcome (A : Type) :=
  | Ok (a : A)
  | Raise (e : exn)
  | OutOfFuel.
Arguments Ok {A} a.
Arguments Raise {A} e.
Arguments OutOfFuel {A}.

Definition is_Ok {A} (o : outcome A) : Prop := ∃ a, o = Ok a.

(** [raise RuntimeError('Detected circular dependency!')] *)
Definition circular : exn :=
  Exn RuntimeError "Detected circular dependency!" [].

(** A call [logger.warn('%r has missing dependency %r' % (name, dep))]. *)
Record warning := Warning { w_name : string; w_dep : string }.

Global Instance warning_eq_dec : EqDecision warning.
Proof. solve_decision. Defined.

(** ** List operations of Python used by the resolver *)

(** [l.index(x)]: the first position of [x]; [None] stands for the
    [ValueError] of an absent element, which is also the case
    [x not in l]. *)
Definition index (x : string) (l : list string) : option nat :=
  fst <$> list_find (x =.) l.

(** [l.insert(i, x)] for [0 <= i]. *)
Definition list_insert_at {A} (i : nat) (x : A) (l : list A) : list A :=
  take i l ++ x :: drop i l.

(** [l.pop(j)]: the element and the list without it, if [j] is in range. *)
Definition pop {A} (j : nat) (l : list A) : option (A * list A) :=
  x ← l !! j; Some (x, delete j l).

(** [names.insert(index, names.pop(j))] *)
Definition move {A} (j i : nat) (l : list A) : option (list A) :=
  '(x, l') ← pop j l; Some (list_insert_at i x l').

(** ** The resolver *)

Section resolver.
Context {T : Type} (name : T → string) (deps : T → list string).

(** [dict([(n, t) for n, t in zip(names, things)])]: a later binding of a
    name replaces an earlier one. *)
Definition dict_of (kvs : list (string * T)) : gmap string T :=
  foldl (λ m kv, <[kv.1 := kv.2]> m) ∅ kvs.

Definition thingmap (things : list T) : gmap string T :=
  dict_of (zip (name <$> things) things).

Section loops.
Context (tm : gmap string T) (warn_missing : bool).

(** The loop [for dep in thingmap[name].deps] at position [idx]:
    [Some names'] when a dependency was moved in front ([break]),
    [None] when the loop ran to its end (the [else] branch), next to
    the warnings logged on the way. *)
Fixpoint scan_deps (nm : string) (idx : nat) (names : list string)
    (ds : list string) : list warning * outcome (option (list string)) :=
  match ds with
  | [] => ([], Ok None)
  | dep :: ds' =>
      match index dep names with
      | None =>
          let '(w, r) := scan_deps nm idx names ds' in
          ((if warn_missing then [Warning nm dep] else []) ++ w, r)
      | Some j =>
          if decide (idx < j) then
            match move j idx names with
            | Some names' => ([], Ok (Some names'))
            | None => ([], Raise (Exn IndexError "pop index out of range" []))
            end
          else scan_deps nm idx names ds'
      end
  end.

(** The loop [while True] at position [idx]. *)
Fixpoint settle (fuel : nat) (idx : nat) (seen_names : gset string)
    (names : list string) : list warning * outcome (list string) :=
  match fuel with
  | 0 => ([], OutOfFuel)
  | S fuel' =>
      match names !! idx with
      | None => ([], Raise (Exn IndexError "list index out of range" []))
      | Some nm =>
          if decide (nm ∈ seen_names) then ([], Raise circular)
          else
            match tm !! nm with
            | None => ([], Raise (Exn KeyError "%r" [nm]))
            | Some t =>
                match scan_deps nm idx names (deps t) with
                | (w, Ok None) => (w, Ok names)
                | (w, Ok (Some names')) =>
                    let '(w', r) :=
                      settle fuel' idx ({[nm]} ∪ seen_names) names' in
                    (w ++ w', r)
                | (w, Raise e) => (w, Raise e)
                | (w, OutOfFuel) => (w, OutOfFuel)
                end
            end
      end
  end.

(** The loop [for index in range(len(names))], over the indices still
    to visit. *)
Fixpoint for_index (fuel : nat) (idxs : list nat) (names : list string)
    : list warning * outcome (list string) :=
  match idxs with
  | [] => ([], Ok names)
  | idx :: idxs' =>
      match settle fuel idx ∅ names with
      | (w, Ok names') =>
          let '(w', r) := for_index fuel idxs' names' in (w ++ w', r)
      | (w, r) => (w, r)
      end
  end.

(** [[thingmap[name] for name in names]] *)
Fixpoint lookup_all (names : list string) : outcome (list T) :=
  match names with
  | [] => Ok []
  | nm :: names' =>
      match tm !! nm with
      | None => Raise (Exn KeyError "%r" [nm])
      | Some t =>
          match lookup_all names' with
          | Ok ts => Ok (t :: ts)
          | r => r
          end
      end
  end.
End loops.

(** [solve_dependencies(things, warn_missing)] with [fuel] iterations
    allowed to each [while] loop: the warnings logged and the outcome. *)
Definition solve_dependencies_fuel (fuel : nat) (things : list T)
    (warn_missing : bool) : list warning * outcome (list T) :=
  let names := name <$> things in
  let tm := thingmap things in
  match for_index tm warn_missing fuel (seq 0 (length names)) names with
  | (w, Ok names') => (w, lookup_all tm names')
  | (w, Raise e) => (w, Raise e)
  | (w, OutOfFuel) => (w, OutOfFuel)
  end.

(** [solve_dependencies(things, warn_missing)]. A pass of the [while]
    loop adds a new name to [seen_names], so one more pass than there are
    names is never needed. *)
Definition solve_dependencies (things : list T) (warn_missing : bool)
    : list warning * outcome (list T) :=
  solve_dependencies_fuel (S (length things)) things warn_missing.

End resolver.

(** A plain item [{name, deps}]: what the resolver needs of a module. The
    list [i_deps] is the iteration order of the [deps] attribute. *)
Record item := Item { i_name : string; i_deps : list string }.

Global Instance item_eq_dec : EqDecision item.
Proof. solve_decision. Defined.

(** ** String operations of Python used by assets and bundles *)

(** [s.startswith(p)] *)
Fixpoint startswith (s p : string) : bool :=
  match p, s with
  | EmptyString, _ => true
  | String c p', String d s' =>
      if decide (c = d) then startswith s' p' else false
  | String _ _, EmptyString => false
  end.

(** [s.startswith(ps)] for a tuple [ps] of prefixes. *)
Definition startswith_any (s : string) (ps : list string) : bool :=
  existsb (startswith s) ps.

(** [s.endswith(suf)] *)
Definition endswith (s suf : string) : bool :=
  startswith (String.rev s) (String.rev suf).

Definition endswith_any (s : string) (sufs : list string) : bool :=
  existsb (endswith s) sufs.

(** [s.lower()] on the ASCII letters; other bytes are kept. *)
Definition lower_ascii (c : ascii) : ascii :=
  let n := nat_of_ascii c in
  if decide (65 ≤ n ∧ n ≤ 90) then ascii_of_nat (n + 32) else c.

Fixpoint lower (s : string) : string :=
  match s with
  | EmptyString => EmptyString
  | String c s' => String (lower_ascii c) (lower s')
  end.

(** [c in s] for a character [c]. *)
Fixpoint contains (c : ascii) (s : string) : bool :=
  match s with
  | EmptyString => false
  | String d s' => if decide (d = c) then true else contains c s'
  end.

(** [s.replace(a, b)] for characters [a] and [b]. *)
Fixpoint replace (a b : ascii) (s : string) : string :=
  match s with
  | EmptyString => EmptyString
  | String c s' => String (if decide (c = a) then b else c) (replace a b s')
  end.

(** [s.rpartition(sep)] when [sep] occurs in [s]: the text before and the
    text after the last [sep]. *)
Fixpoint rpartition (sep : ascii) (s : string) : option (string * string) :=
  match s with
  | EmptyString => None
  | String c s' =>
      match rpartition sep s' with
      | Some (a, b) => Some (String c a, b)
      | None => if decide (c = sep) then Some (EmptyString, s') else None
      end
  end.

(** [s.rsplit(sep, 1)[0]] *)
Definition rsplit1_head (sep : ascii) (s : string) : string :=
  match rpartition sep s with Some (a, _) => a | None => s end.

(** [s.split(sep)[-1]], which is also [s.rsplit(sep)[-1]]. *)
Definition split_last (sep : ascii) (s : string) : string :=
  match rpartition sep s with Some (_, b) => b | None => s end.

(** [s.split(sep)[0]] *)
Fixpoint split_head (sep : ascii) (s : string) : string :=
  match s with
  | EmptyString => EmptyString
  | String c s' =>
      if decide (c = sep) then EmptyString else String c (split_head sep s')
  end.

(** ** Assets *)

(** [url_starts = 'https://', 'http://'] *)
Definition url_starts : list string := ["https://"; "http://"].

(** The Python values an asset is built from: [None], a [str], a callable
    (its class name and what its n-th invocation returns, n counted from
    0), and any other value (an [int] stands for them). *)
Inductive pyval :=
  | PNone
  | PStr (s : string)
  | PInt (z : Z)
  | PFunc (cls : string) (f : nat → pyval).

(** The attributes of an [Asset] object; [a_calls] counts the invocations
    of the source function made by this object. *)
Record asset := Asset {
  a_i : nat;
  a_name : string;
  a_remote : bool;
  a_source_str : pyval;
  a_source : pyval;
  a_calls : nat
}.

(** [v is None] *)
Definition is_None (v : pyval) : bool :=
  match v with PNone => true | _ => false end.

(** The backslash and the double quote of the source's literals. *)
Definition backslash : ascii := ascii_of_nat 92.
Definition dquote : string := String (ascii_of_nat 34) EmptyString.

(** [Asset.__init__(self, name, source)], threading the class attribute
    [Asset._counter]. *)
Definition Asset_init (counter : nat) (name source : pyval)
    : nat * outcome asset :=
  let counter := S counter in
  (counter,
   match name with
   | PStr name =>
       let is_url := startswith_any name url_starts in
       if is_url && negb (is_None source) then
         Raise (Exn TypeError "Remote assets cannot have a source: %s" [name])
       else
         let source := if is_url then PStr name else source in
         let name :=
           if is_url then split_last "/" (replace backslash "/" name) else name in
         if negb (endswith_any (lower name) [".js"; ".css"]) then
           Raise (Exn ValueError "Asset name must end in .js or .css." [])
         else
           match source with
           | PNone => Raise (Exn TypeError "Asset needs a source." [])
           | PStr src =>
               if startswith_any src url_starts then
                 Ok (Asset counter name true PNone source 0)
               else if startswith src "file://" then
                 Raise (Exn TypeError
                   ("Cannot specify an asset using " +:+ dquote +:+ "file://"
                    +:+ dquote
                    +:+ ", use http or open the file and use contents.") [])
               else Ok (Asset counter name false (PStr src) source 0)
           | PFunc _ _ => Ok (Asset counter name false PNone source 0)
           | PInt _ =>
               Raise (Exn TypeError "Asset source must be str or callable." [])
           end
   | _ => Raise (Exn TypeError "Asset name must be str." [])
   end).

Section asset.
(** The network collaborator behind [urlopen(req, timeout=5.0).read().decode()]:
    the text of a URL, or the error of the transport. *)
Context (urlopen : string → outcome string).

(** [Asset._get_from_url(self, url)] *)
Definition get_from_url (url : string) : outcome string :=
  if startswith_any url url_starts then urlopen url
  else Raise (Exn ValueError "_get_from_url() needs a URL string." []).

(** [Asset.to_string(self)]: the object after the call and what the call
    returns or raises. The source function is invoked, and its result is
    stored in [_source_str], before the result is checked to be a [str]. *)
Definition to_string (a : asset) : asset * outcome pyval :=
  match a_source_str a with
  | PNone =>
      match a_source a with
      | PFunc cls f =>
          let v := f (a_calls a) in
          let a' := Asset (a_i a) (a_name a) (a_remote a) v (a_source a)
                          (S (a_calls a)) in
          match v with
          | PStr _ => (a', Ok v)
          | _ =>
              (a', Raise (Exn ValueError
                 "Source function of asset %r did not return a str, but a %s."
                 [a_name a; cls]))
          end
      | PStr url =>
          if a_remote a then
            match get_from_url url with
            | Ok s =>
                (Asset (a_i a) (a_name a) (a_remote a) (PStr s) (a_source a)
                       (a_calls a), Ok (PStr s))
            | Raise e => (a, Raise e)
            | OutOfFuel => (a, OutOfFuel)
            end
          else (a, Raise (Exn AssertionError "This should not happen" []))
      | _ => (a, Raise (Exn AssertionError "This should not happen" []))
      end
  | v => (a, Ok v)
  end.

(** [n] calls of [to_string] in a row: the object at the end and the
    results of the calls, in order. *)
Fixpoint to_string_times (n : nat) (a : asset)
    : asset * list (outcome pyval) :=
  match n with
  | 0 => (a, [])
  | S n' =>
      let '(a', r) := to_string a in
      let '(a'', rs) := to_string_times n' a' in
      (a'', r :: rs)
  end.
End asset.

(** ** Bundles *)

(** The attributes of a [Bundle] object; [b_asset] holds those it has as
    an [Asset]. *)
Record bundle := Bundle {
  b_asset : asset;
  b_assets : list asset;
  b_module_name : string;
  b_modules : list item;
  b_deps : gset string;
  b_need_sort : bool
}.

Definition b_name (b : bundle) : string := a_name (b_asset b).

(** [Bundle.__init__(self, name)] *)
Definition Bundle_init (counter : nat) (name : pyval)
    : nat * outcome bundle :=
  match Asset_init counter name (PStr "") with
  | (counter, Ok a) =>
      match name with
      | PStr name =>
          (counter,
           Ok (Bundle a [] (split_head "-" (rsplit1_head "." name)) [] ∅
                      false))
      | _ => (counter, Raise (Exn TypeError "Asset name must be str." []))
      end
  | (counter, Raise e) => (counter, Raise e)
  | (counter, OutOfFuel) => (counter, OutOfFuel)
  end.

(** The loop [while '.' in dep: deps.add(dep); dep = dep.rsplit('.', 1)[0]]
    followed by [deps.add(dep)]. *)
Fixpoint expand_dep (fuel : nat) (dep : string) (deps : gset string)
    : outcome (gset string) :=
  match fuel with
  | 0 => OutOfFuel
  | S fuel' =>
      if contains "." dep then
        expand_dep fuel' (rsplit1_head "." dep) ({[dep]} ∪ deps)
      else Ok ({[dep]} ∪ deps)
  end.

(** The loop [for dep in m.deps] around it. A pass of the [while] loop
    shortens [dep], so one more pass than [dep] has characters is never
    needed. *)
Fixpoint expand_deps (ds : list string) (deps : gset string)
    : outcome (gset string) :=
  match ds with
  | [] => Ok deps
  | dep :: ds' =>
      match expand_dep (S (String.length dep)) dep deps with
      | Ok deps' => expand_deps ds' deps'
      | r => r
      end
  end.

(** [dep.startswith(self._module_name) or
     self._module_name.startswith(dep + '.')] *)
Definition represented (module_name dep : string) : bool :=
  startswith dep module_name || startswith module_name (dep +:+ ".").

(** The loop [for dep in deps] that adds to [self._deps]. *)
Definition clear_deps (module_name ext : string) (deps own : gset string)
    : gset string :=
  set_fold (λ dep acc,
    if negb (represented module_name dep) then {[dep +:+ ext]} ∪ acc
    else acc) own deps.

(** [Bundle.add_module(self, m)] *)
Definition add_module (b : bundle) (m : item) : outcome bundle :=
  let ext := "." +:+ lower (split_last "." (b_name b)) in
  if negb (startswith (i_name m) (b_module_name b)) then
    Raise (Exn ValueError "Module %s does not belong in bundle %s."
                [i_name m; b_name b])
  else
    match expand_deps (i_deps m) ∅ with
    | Ok deps =>
        Ok (Bundle (b_asset b) (b_assets b) (b_module_name b)
                   (b_modules b ++ [m])
                   (clear_deps (b_module_name b) ext deps (b_deps b))
                   true)
    | Raise e => Raise e
    | OutOfFuel => OutOfFuel
    end.

(** [add_module] for each module of a list in turn, stopping at the first
    that raises. *)
Fixpoint add_modules (b : bundle) (ms : list item) : outcome bundle :=
  match ms with
  | [] => Ok b
  | m :: ms' =>
      match add_module b m with
      | Ok b' => add_modules b' ms'
      | r => r
      end
  end.

(** [sorted(ms, key=lambda m: m.name)]: a stable sort, here by insertion.
    An element goes in front of the first one whose name is not smaller,
    so elements of equal name keep their order. *)
Fixpoint insert_by_name (m : item) (ms : list item) : list item :=
  match ms with
  | [] => [m]
  | m' :: ms' =>
      if String.leb (i_name m) (i_name m') then m :: m' :: ms'
      else m' :: insert_by_name m ms'
  end.

Definition sorted_by_name (ms : list item) : list item :=
  foldr insert_by_name [] ms.

(** The property [Bundle.modules]: the object after the read and the tuple
    returned. [self._need_sort] is not assigned. *)
Definition modules (b : bundle) : bundle * outcome (list item) :=
  if b_need_sort b then
    match (solve_dependencies i_name i_deps
             (sorted_by_name (b_modules b)) false).2 with
    | Ok ms =>
        (Bundle (b_asset b) (b_assets b) (b_module_name b) ms (b_deps b)
                (b_need_sort b), Ok ms)
    | Raise e => (b, Raise e)
    | OutOfFuel => (b, OutOfFuel)
    end
  else (b, Ok (b_modules b)).

(** ** Notions the properties are stated with *)

(** A run ended as the source can end: with a value, or with the circular
    dependency error. *)
Definition resolved {A} (r : outcome A) : Prop := is_Ok r ∨ r = Raise circular.

(** How often [x] occurs in [l]. *)
Definition count {A} `{EqDecision A} (x : A) (l : list A) : nat :=
  length (filter (x =.) l).

Section notions.
Context {T : Type} (name : T → string) (deps : T → list string).

(** Position [idx] of [names] needs no move: every dependency of the item
    standing there that occurs in [names] has its first occurrence at
    [idx] or before. *)
Definition settled_at (tm : gmap string T) (idx : nat) (names : list string)
    : Prop :=
  ∃ nm t, names !! idx = Some nm ∧ tm !! nm = Some t ∧
    ∀ d j, d ∈ deps t → index d names = Some j → j ≤ idx.

(** [a] depends on [b]: an item named [a] lists [b] among its dependencies,
    and [b] is the name of an item of the sequence. *)
Definition dep_edge (things : list T) (a b : string) : Prop :=
  ∃ t, t ∈ things ∧ name t = a ∧ b ∈ deps t ∧ b ∈ name <$> things.

(** The dependency graph over the names of the sequence has no cycle. *)
Definition acyclic (things : list T) : Prop :=
  ∀ n, ¬ tc (dep_edge things) n n.

(** The edges the loops follow: from a name to a dependency, present in
    [N], of the item that [tm] holds for the name. *)
Definition tm_edge (tm : gmap string T) (N : list string) (a b : string)
    : Prop :=
  ∃ t, tm !! a = Some t ∧ b ∈ deps t ∧ b ∈ N.

(** [d] is listed as a dependency by an item of another name. Only such
    names are ever moved to the front. *)
Definition pulled (things : list T) (d : string) : Prop :=
  Exists (λ t, name t ≠ d ∧ d ∈ deps t) things.

#[global] Instance pulled_dec things d : Decision (pulled things d).
Proof. unfold pulled. apply _. Defined.
End notions.

(** [p] is [s] cut in front of one of its dots, or [s] itself: the names
    [a.b.c], [a.b] and [a] for [a.b.c]. *)
Definition dotted_prefix (p s : string) : Prop :=
  p = s ∨ ∃ r, s = p +:+ String "." r.

(** [d] is inside the namespace [ns]: it starts with [ns], or [ns] starts
    with [d] followed by a dot. *)
Definition inside_namespace (ns d : string) : Prop :=
  (∃ r, d = ns +:+ r) ∨ (∃ r, ns = d +:+ String "." r).

(** The extension of a bundle: a dot and what follows the last dot of its
    name, in lower case. *)
Definition bundle_ext (b : bundle) : string :=
  "." +:+ lower (split_last "." (b_name b)).

(** ** Exceptions of further classes *)

(** [NameError] and [AttributeError], which the functions below can raise
    besides the classes of [exn_class]. *)
Inductive exn_more :=
  | NameError (msg : string)
  | AttributeError (attr : string).

(** The outcome of a call that can also raise one of them. *)
Inductive outcome_more (A : Type) :=
  | Plain (r : outcome A)
  | RaiseMore (e : exn_more).
Arguments Plain {A} r.
Arguments RaiseMore {A} e.

(** ** Module names *)

(** What [get_mod_name] reads of a module object: [__name__], and
    [__file__] when the module has the attribute ([hasattr]), with the
    value it holds. *)
Record pymodule := PyModule {
  mod_name : string;
  mod_file : option pyval
}.

(** An object given to [get_mod_name]: a module, or another object with
    its [__module__] attribute when it has one. *)
Inductive pyobject :=
  | ObModule (m : pymodule)
  | ObOther (module_attr : option string).

(** [module_is_package(module)]; a [__file__] that is no [str] has no
    [rsplit]. *)
Definition module_is_package (m : pymodule) : outcome_more bool :=
  match mod_file m with
  | None => Plain (Ok false)
  | Some (PStr file) =>
      Plain (Ok (endswith (rsplit1_head "." file) "__init__"))
  | Some _ => RaiseMore (AttributeError "rsplit")
  end.

(** [get_mod_name(ob)], with [sys.modules] as a table. *)
Definition get_mod_name (sys_modules : gmap string pymodule) (ob : pyobject)
    : outcome_more string :=
  let found :=
    match ob with
    | ObModule m => Plain (Ok m)
    | ObOther None => RaiseMore (AttributeError "__module__")
    | ObOther (Some k) =>
        match sys_modules !! k with
        | Some m => Plain (Ok m)
        | None => Plain (Raise (Exn KeyError "%r" [k]))
        end
    end in
  match found with
  | Plain (Ok m) =>
      match module_is_package m with
      | Plain (Ok true) => Plain (Ok (mod_name m +:+ ".__init__"))
      | Plain (Ok false) => Plain (Ok (mod_name m))
      | Plain (Raise e) => Plain (Raise e)
      | Plain OutOfFuel => Plain OutOfFuel
      | RaiseMore e => RaiseMore e
      end
  | Plain (Raise e) => Plain (Raise e)
  | Plain OutOfFuel => Plain OutOfFuel
  | RaiseMore e => RaiseMore e
  end.

(** ** Tags of assets *)

(** [path.replace('{}', name)]: every [{}] of [path], from the left. *)
Fixpoint replace_braces (name path : string) : string :=
  match path with
  | EmptyString => EmptyString
  | String c path' =>
      match path' with
      | String d path'' =>
          if decide (c = "{"%char ∧ d = "}"%char)
          then name +:+ replace_braces name path''
          else String c (replace_braces name path')
      | EmptyString => String c EmptyString
      end
  end.

(** The line feed of ['\n']. *)
Definition newline : ascii := ascii_of_nat 10.

Section html.
Context (urlopen : string → outcome string).
(** [str(v)] for the values [v] that are no text. *)
Context (str_of : pyval → string).

(** ['%s' % v] *)
Definition format_s (v : pyval) : string :=
  match v with PStr s => s | _ => str_of v end.

(** The tag that holds the content [code] between [opening] and
    [closing]: [s = '\n' if ('\n' in code) else ''], for a [code] that is
    text. *)
Definition inline_tag (opening closing : string) (code : pyval)
    : outcome_more string :=
  match code with
  | PStr code =>
      let s := if contains newline code then String newline EmptyString
               else EmptyString in
      Plain (Ok (opening +:+ s +:+ code +:+ s +:+ closing))
  | _ => Plain (Raise (Exn TypeError "argument of type %r is not iterable" []))
  end.

(** [Asset.to_html(self, path, link)]: the object after the call and the
    tag. *)
Definition to_html (a : asset) (path : string) (link : Z)
    : asset * outcome_more string :=
  let path := replace_braces (a_name a) path in
  let inline opening closing :=
    match to_string urlopen a with
    | (a', Ok code) => (a', inline_tag opening closing code)
    | (a', Raise e) => (a', Plain (Raise e))
    | (a', OutOfFuel) => (a', Plain OutOfFuel)
    end in
  if endswith (lower (a_name a)) ".js" then
    if a_remote a && bool_decide (link ∈ [1; 3]%Z) then
      (a, Plain (Ok ("<script src='" +:+ format_s (a_source a) +:+ "' id='"
                     +:+ a_name a +:+ "'></script>")))
    else if bool_decide (link ∈ [0; 1]%Z) then
      inline ("<script id='" +:+ a_name a +:+ "'>") "</script>"
    else
      (a, Plain (Ok ("<script src='" +:+ path +:+ "' id='" +:+ a_name a
                     +:+ "'></script>")))
  else if endswith (lower (a_name a)) ".css" then
    if a_remote a && bool_decide (link ∈ [1; 3]%Z) then
      (a, Plain (Ok ("<link rel='stylesheet' type='text/css' href='"
                     +:+ format_s (a_source a) +:+ "' id='" +:+ a_name a
                     +:+ "' />")))
    else if bool_decide (link ∈ [0; 1]%Z) then
      inline ("<style id='" +:+ a_name a +:+ "'>") "</style>"
    else
      (a, Plain (Ok ("<link rel='stylesheet' type='text/css' href='"
                     +:+ path +:+ "' id='" +:+ a_name a +:+ "' />")))
  else (a, RaiseMore (NameError "Assets must be .js or .css")).
End html.

(** ** The text of a bundle *)

(** The license header put before the code of every module. *)
Definition HEADER : string :=
  "/* Autogenerated code from Flexx. Code Subject to the BSD-2-clause license. */"
  +:+ String newline (String newline "").

(** [n] times the character [c]. *)
Fixpoint fill (n : nat) (c : ascii) : string :=
  match n with
  | 0 => EmptyString
  | S n' => String c (fill n' c)
  end.

(** [s.center(width, c)]: a text that is wide enough is returned as it is;
    of an odd number of fill characters the left side gets the greater
    part when the width is odd too. *)
Definition center (s : string) (width : nat) (c : ascii) : string :=
  let n := String.length s in
  if decide (width ≤ n) then s
  else
    let marg := width - n in
    let left := Nat.div marg 2
                + (if Nat.odd marg && Nat.odd width then 1 else 0) in
    fill left c +:+ s +:+ fill (marg - left) c.

(** ['/* ' + (' %s ' % name).center(70, '=') + '*/'] *)
Definition banner (name : string) : string :=
  "/* " +:+ center (" " +:+ name +:+ " ") 70 "=" +:+ "*/".

(** [sep.join(l)] for texts. *)
Fixpoint join (sep : string) (l : list string) : string :=
  match l with
  | [] => EmptyString
  | s :: l' =>
      match l' with
      | [] => s
      | _ :: _ => s +:+ sep +:+ join sep l'
      end
  end.

(** The texts of a list of values, when all of them are texts. *)
Fixpoint texts (l : list pyval) : option (list string) :=
  match l with
  | [] => Some []
  | PStr s :: l' => cons s <$> texts l'
  | _ :: _ => None
  end.

(** [sep.join(l)] for values: a value that is no text is a [TypeError]
    (the position and the type, which the message names, are left out). *)
Definition join_values (sep : string) (l : list pyval) : outcome string :=
  match texts l with
  | Some ss => Ok (join sep ss)
  | None =>
      Raise (Exn TypeError
               "sequence item %d: expected str instance, %s found" [])
  end.

Section bundle_text.
Context (urlopen : string → outcome string).
(** The collaborators [m.get_js()] and [m.get_css()] of the modules. *)
Context (get_js get_css : item → outcome string).

(** The loop over [self.assets]. An asset is an object that [to_string]
    changes, and one object can stand in the list more than once: [heap]
    holds, by its number [i], every object the loop has changed, and an
    entry of the list is read through it. *)
Fixpoint assets_to_string (heap : gmap nat asset) (refs : list asset)
    (toc : list string) (source : list pyval)
    : gmap nat asset * outcome (list string * list pyval) :=
  match refs with
  | [] => (heap, Ok (toc, source))
  | r :: refs' =>
      let a := default r (heap !! a_i r) in
      let toc := toc ++ ["- asset " +:+ a_name a] in
      let source := source ++ [PStr (banner (a_name a))] in
      let '(a', code) := to_string urlopen a in
      let heap := <[a_i r := a']> heap in
      match code with
      | Ok code => assets_to_string heap refs' toc (source ++ [code])
      | Raise e => (heap, Raise e)
      | OutOfFuel => (heap, OutOfFuel)
      end
  end.

(** The loop over [self.modules]. *)
Fixpoint modules_to_string (isjs : bool) (ms : list item)
    (toc : list string) (source : list pyval)
    : outcome (list string * list pyval) :=
  match ms with
  | [] => Ok (toc, source)
  | m :: ms' =>
      match (if isjs then get_js m else get_css m) with
      | Ok s =>
          modules_to_string isjs ms'
            (toc ++ ["- module " +:+ i_name m])
            (source ++ [PStr (banner (i_name m)); PStr HEADER; PStr s])
      | Raise e => Raise e
      | OutOfFuel => OutOfFuel
      end
  end.

(** ['/* Bundle contents:\n' + '\n'.join(toc) + '\n*/\n'] *)
Definition contents_comment (toc : list string) : string :=
  "/* Bundle contents:" +:+ String newline (join (String newline "") toc)
  +:+ String newline ("*/" +:+ String newline "").

(** [Bundle.to_string(self)]: the object after the call and the text. The
    property [modules] is read twice, for the loop and for the count. *)
Definition Bundle_to_string (b : bundle) : bundle * outcome string :=
  let isjs := endswith (lower (b_name b)) ".js" in
  let '(heap, looped) := assets_to_string ∅ (b_assets b) [] [] in
  let b := Bundle (b_asset b) ((λ r, default r (heap !! a_i r)) <$> b_assets b)
                  (b_module_name b) (b_modules b) (b_deps b)
                  (b_need_sort b) in
  match looped with
  | Ok (toc, source) =>
      match modules b with
      | (b, Ok ms) =>
          match modules_to_string isjs ms toc source with
          | Ok (toc, source) =>
              match modules b with
              | (b, Ok ms') =>
                  let source :=
                    if decide (1 < length (b_assets b) + length ms')
                    then PStr (contents_comment toc) :: source
                    else source in
                  (b, join_values (String newline (String newline ""))
                        source)
              | (b, Raise e) => (b, Raise e)
              | (b, OutOfFuel) => (b, OutOfFuel)
              end
          | Raise e => (b, Raise e)
          | OutOfFuel => (b, OutOfFuel)
          end
      | (b, Raise e) => (b, Raise e)
      | (b, OutOfFuel) => (b, OutOfFuel)
      end
  | Raise e => (b, Raise e)
  | OutOfFuel => (b, OutOfFuel)
  end.
End bundle_text.

(** ** Notions for the further properties *)

(** What holds of every asset that [Asset.__init__] built, whatever was
    called on it since: the name has one of the two suffixes, the source
    is a text or a function, the asset is remote exactly when the source is
    a text that starts as a URL, and a text that is no URL is the
    content. *)
Definition asset_ok (a : asset) : Prop :=
  endswith_any (lower (a_name a)) [".js"; ".css"] = true ∧
  match a_source a with
  | PStr src =>
      a_remote a = startswith_any src url_starts ∧
      (a_remote a = false → a_source_str a = PStr src)
  | PFunc _ _ => a_remote a = false
  | _ => False
  end.

(** [a] depends on another name [b]. *)
Definition dep_edge_other {T} (name : T → string) (deps : T → list string)
    (things : list T) (a b : string) : Prop :=
  dep_edge name deps things a b ∧ a ≠ b.

(** The loops' edges to another name. *)
Definition tm_edge_other {T} (deps : T → list string) (tm : gmap string T)
    (N : list string) (a b : string) : Prop :=
  tm_edge deps tm N a b ∧ a ≠ b.

(** There is a dependency cycle through two different names. *)
Definition has_cycle {T} (name : T → string) (deps : T → list string)
    (things : list T) : Prop :=
  ∃ a b, a ≠ b ∧ tc (dep_edge name deps things) a b ∧
         tc (dep_edge name deps things) b a.

(** The texts [pieces] stand in [s] one after the other, without
    overlap. *)
Fixpoint in_order (pieces : list string) (s : string) : Prop :=
  match pieces with
  | [] => True
  | p :: ps => ∃ pre rest, s = pre +:+ p +:+ rest ∧ in_order ps rest
  end.

(** ** Inputs of the examples *)

Definition solve_items := solve_dependencies i_name i_deps.

(** [c] and [b] need [a]. *)
Definition items_cab : list item :=
  [Item "c" ["a"]; Item "a" []; Item "b" ["a"]].

(** The chain A -> B -> C -> A. *)
Definition items_cycle : list item :=
  [Item "A" ["B"]; Item "B" ["C"]; Item "C" ["A"]].

(** An item that lists itself. *)
Definition items_self : list item := [Item "a" ["a"]].

(** Two items of one name; the first, which closes a cycle with [B], is
    not the one the lookup by name finds. *)
Definition items_dup : list item :=
  [Item "A" ["B"]; Item "B" ["A"]; Item "A" []].

(** [x] needs [z], which stands after the unrelated [y]. *)
Definition items_xyz : list item :=
  [Item "x" ["z"]; Item "y" []; Item "z" []].

(** [X] needs a missing [m] and then [y], which stands after it. *)
Definition items_missing : list item :=
  [Item "X" ["m"; "y"]; Item "y" []].

(** A network that is never reached. *)
Definition no_network (url : string) : outcome string :=
  Raise (Exn RuntimeError "urlopen" [url]).

(** A source function that returns [None] at every call. *)
Definition returns_None : pyval := PFunc "function" (λ _, PNone).

(** A source function that returns the text [body{}]. *)
Definition returns_css : pyval := PFunc "function" (λ _, PStr "body{}").

(** ** Inputs of the further examples *)

(** [a], then [c] and [b], which need it. *)
Definition items_acb : list item :=
  [Item "a" []; Item "c" ["a"]; Item "b" ["a"]].

(** A remote script, built from its URL. *)
Definition asset_remote : asset :=
  Asset 1 "x.js" true PNone (PStr "https://example.com/x.js") 0.

(** A style sheet with its text. *)
Definition asset_css : asset :=
  Asset 1 "style.css" false (PStr "body{}") (PStr "body{}") 0.

(** A source function that returns a number. *)
Definition returns_int : pyval := PFunc "function" (λ _, PInt 42).

(** [str] of values that are no text, for runs in which it is not used. *)
Definition str_none (v : pyval) : string := "".

(** The bundle [pkg.js] after [pkg.b], which needs [pkg.a], and [pkg.a]
    were added. *)
Definition bundle_ba : bundle :=
  Bundle (Asset 1 "pkg.js" false (PStr "") (PStr "") 0) [] "pkg"
         [Item "pkg.b" ["pkg.a"]; Item "pkg.a" []] ∅ true.

(** The same after the two were added in the other order. *)
Definition bundle_ab : bundle :=
  Bundle (Asset 1 "pkg.js" false (PStr "") (PStr "") 0) [] "pkg"
         [Item "pkg.a" []; Item "pkg.b" ["pkg.a"]] ∅ true.

(** The bundle [pkg.js] with two modules that need each other. *)
Definition bundle_cycle : bundle :=
  Bundle (Asset 1 "pkg.js" false (PStr "") (PStr "") 0) [] "pkg"
         [Item "pkg.a" ["pkg.b"]; Item "pkg.b" ["pkg.a"]] ∅ true.

(** The bundle [pkg-extra.js] as it is created. *)
Definition bundle_new : bundle :=
  Bundle (Asset 1 "pkg-extra.js" false (PStr "") (PStr "") 0) [] "pkg"
         [] ∅ false.

(** The bundle [pkg.js] as it is created. *)
Definition bundle_pkg : bundle :=
  Bundle (Asset 1 "pkg.js" false (PStr "") (PStr "") 0) [] "pkg" [] ∅ false.

(** The same after the module [pkg.a] was added, which needs [pkg.sub.b]
    and [other.x]. *)
Definition bundle_pkg_a : bundle :=
  match add_modules bundle_pkg [Item "pkg.a" ["pkg.sub.b"; "other.x"]] with
  | Ok b => b
  | _ => bundle_pkg
  end.

(** Modules whose code is a line that names them. *)
Definition code_of (m : item) : outcome string :=
  Ok ("// " +:+ i_name m).

(** The bundle [pkg.js] with a style sheet as its asset and with the
    modules [pkg.b], which needs [pkg.a], and [pkg.a]. *)
Definition bundle_text : bundle :=
  Bundle (Asset 2 "pkg.js" false (PStr "") (PStr "") 0) [asset_css] "pkg"
         [Item "pkg.b" ["pkg.a"]; Item "pkg.a" []] ∅ true.

(** ** Tactics for the examples *)

(** Membership in a list that is written out, and an edge of the dependency
    graph through the item [t]. *)
Ltac by_listing :=
  simpl; rewrite ?elem_of_cons; auto 10.

Ltac dep_edge_of t :=
  exists t; split_and!; [by_listing | reflexivity | by_listing | by_listing].

(** ** Facts on [index], [pop] and [move] *)

Lemma index_Some x l j :
  index x l = Some j ↔ l !! j = Some x ∧ ∀ k, k < j → l !! k ≠ Some x.
Proof.
  unfold index. rewrite fmap_Some. split.
  - intros [[j' y] [Hf ->]]. apply list_find_Some in Hf as (Hl & <- & Hmin).
    split; [done|]. intros k Hk Hlk. by eapply Hmin.
  - intros [Hl Hmin]. exists (j, x). split; [|done].
    apply list_find_Some. split_and!; [done..|].
    intros k y Hk Hlt <-. by eapply Hmin.
Qed.

Lemma index_None x l : index x l = None ↔ x ∉ l.
Proof.
  unfold index. rewrite fmap_None, list_find_None, Forall_forall.
  split; [intros H Hin; by eapply H|intros H y Hy <-; done].
Qed.

Lemma index_is_Some x l : is_Some (index x l) ↔ x ∈ l.
Proof.
  rewrite <-not_eq_None_Some, index_None. split; [apply dec_stable|auto].
Qed.

Lemma index_lt x l j : index x l = Some j → j < length l.
Proof. intros [H _]%index_Some. by eapply lookup_lt_Some. Qed.

Lemma index_le_lookup x l j k :
  index x l = Some j → l !! k = Some x → j ≤ k.
Proof.
  intros [_ Hmin]%index_Some Hk. destruct (decide (j ≤ k)); [done|].
  exfalso. apply (Hmin k); [lia|done].
Qed.

Lemma move_Some {A} j i (l l' : list A) :
  move j i l = Some l' ↔
  ∃ x, l !! j = Some x ∧ l' = take i (delete j l) ++ x :: drop i (delete j l).
Proof.
  unfold move, pop, list_insert_at. destruct (l !! j) as [x|]; simpl.
  - split; [intros [= <-]; eauto|intros (? & [= <-] & ->); done].
  - split; [done|intros (? & ? & _); done].
Qed.

Lemma move_is_Some {A} j i (l : list A) : j < length l → is_Some (move j i l).
Proof.
  intros [x Hx]%lookup_lt_is_Some. eexists. apply move_Some. eauto.
Qed.

Lemma move_Permutation {A} j i (l l' : list A) : move j i l = Some l' → l' ≡ₚ l.
Proof.
  intros (x & Hx & ->)%move_Some.
  rewrite <-Permutation_middle, take_drop. symmetry. by apply delete_Permutation.
Qed.

Lemma move_take {A} j i (l l' : list A) :
  i ≤ j → move j i l = Some l' → take i l' = take i l.
Proof.
  intros Hij (x & Hx & ->)%move_Some.
  pose proof (lookup_lt_Some _ _ _ Hx) as Hj.
  assert (i ≤ length (delete j l)).
  { rewrite length_delete by (by eexists). apply lookup_lt_Some in Hx. lia. }
  rewrite take_app_le by (rewrite length_take; lia).
  rewrite take_take, Nat.min_id. 
  rewrite delete_take_drop, take_app_le by (rewrite length_take; lia).
  rewrite take_take. f_equal. lia.
Qed.

Lemma move_lookup {A} j i (l l' : list A) :
  i ≤ j → move j i l = Some l' → l' !! i = l !! j.
Proof.
  intros Hij (x & Hx & ->)%move_Some.
  pose proof (lookup_lt_Some _ _ _ Hx) as Hj.
  assert (i ≤ length (delete j l)).
  { rewrite length_delete by (by eexists). apply lookup_lt_Some in Hx. lia. }
  rewrite Hx. apply list_lookup_middle. rewrite length_take. lia.
Qed.

Lemma move_filter {A} (P : A → Prop) `{!∀ x, Decision (P x)} j i (l l' : list A) x :
  move j i l = Some l' → l !! j = Some x → ¬ P x → filter P l' = filter P l.
Proof.
  intros (y & Hy & ->)%move_Some Hx HP. assert (y = x) as -> by congruence.
  rewrite filter_app, filter_cons_False by done.
  rewrite <-filter_app, take_drop.
  rewrite <-(take_drop_middle l j x) at 2 by done.
  rewrite delete_take_drop, !filter_app, filter_cons_False by done. done.
Qed.

Lemma take_eq_le {A} i k (l1 l2 : list A) :
  i ≤ k → take k l1 = take k l2 → take i l1 = take i l2.
Proof.
  intros Hik Heq.
  rewrite <-(Nat.min_l i k), <-!take_take by done. by rewrite Heq.
Qed.

Lemma tc_mono {A} (R1 R2 : relation A) x y :
  (∀ a b, R1 a b → R2 a b) → tc R1 x y → tc R2 x y.
Proof.
  intros Hsub. induction 1 as [a b Hab|a b c Hab _ IH].
  - by apply tc_once, Hsub.
  - eapply tc_l; [by apply Hsub|done].
Qed.

(** ** What a pass of the loops keeps *)

Section resolver_facts.
Context {T : Type} (name : T → string) (deps : T → list string).
Context (tm : gmap string T).

Lemma scan_deps_inv warn nm idx names ds w r :
  scan_deps warn nm idx names ds = (w, r) →
  (r = Ok None ∧ ∀ d j, d ∈ ds → index d names = Some j → j ≤ idx) ∨
  (∃ d j names', r = Ok (Some names') ∧ d ∈ ds ∧ index d names = Some j ∧
     idx < j ∧ move j idx names = Some names').
Proof.
  revert w r. induction ds as [|dep ds IH]; intros w r; simpl.
  - intros [= <- <-]. left. split; [done|]. intros d j Hd. by apply elem_of_nil in Hd.
  - destruct (index dep names) as [j|] eqn:Hj.
    + destruct (decide (idx < j)) as [Hlt|Hge].
      * destruct (move_is_Some j idx names) as [names' Hmv].
        { by eapply index_lt. }
        rewrite Hmv. intros [= <- <-]. right. exists dep, j, names'.
        split_and!; [done|(apply elem_of_cons; by left)|done..].
      * intros [Hnone|(d & j' & names' & ? & ? & ?)]%IH.
        -- left. destruct Hnone as [-> Hall]. split; [done|].
           intros d j' [->|Hd]%elem_of_cons Hd'; [|by eapply Hall].
           assert (j' = j) by congruence. lia.
        -- right. exists d, j', names'. split_and!; [done|(apply elem_of_cons; by right)|tauto..].
    + destruct (scan_deps warn nm idx names ds) as [w' r'] eqn:Hscan.
      intros [= <- <-].
      destruct (IH _ _ eq_refl) as [[-> Hall]|(d & j' & names' & ? & ? & ?)].
      * left. split; [done|].
        intros d j' [->|Hd]%elem_of_cons Hd'; [congruence|by eapply Hall].
      * right. exists d, j', names'. split_and!; [done|(apply elem_of_cons; by right)|tauto..].
Qed.

Lemma settle_Ok warn fuel idx seen names w names' :
  settle deps tm warn fuel idx seen names = (w, Ok names') →
  names' ≡ₚ names ∧ take idx names' = take idx names ∧ settled_at deps tm idx names'.
Proof.
  revert seen names w. induction fuel as [|fuel IH]; intros seen names w; simpl; [done|].
  destruct (names !! idx) as [nm|] eqn:Hnm; [|done].
  case_decide; [done|].
  destruct (tm !! nm) as [t|] eqn:Ht; [|done].
  destruct (scan_deps warn nm idx names (deps t)) as [w1 r1] eqn:Hscan.
  destruct (scan_deps_inv _ _ _ _ _ _ _ Hscan)
    as [[-> Hall]|(d & j & names1 & -> & Hd & Hj & Hlt & Hmv)].
  - intros [= <- <-]. split_and!; [done..|]. exists nm, t. eauto.
  - destruct (settle deps tm warn fuel idx ({[nm]} ∪ seen) names1) as [w2 r2] eqn:Hrec.
    intros [= <- ->]. apply IH in Hrec as (Hp & Htk & Hs).
    split_and!; [|  |done].
    + rewrite Hp. by eapply move_Permutation.
    + rewrite Htk. eapply move_take; [|done]. lia.
Qed.

Lemma settled_at_stable k names names' :
  settled_at deps tm k names → names' ≡ₚ names →
  take (S k) names' = take (S k) names → settled_at deps tm k names'.
Proof.
  intros (nm & t & Hnm & Ht & Hall) Hp Htk.
  assert (∀ i, i ≤ k → names' !! i = names !! i) as Hpre.
  { intros i Hi. rewrite <-(lookup_take_lt names' (S k)), <-(lookup_take_lt names (S k)) by lia.
    by rewrite Htk. }
  exists nm, t. split_and!; [by rewrite Hpre|done|].
  intros d j Hd Hj.
  assert (d ∈ names) as [j0 Hj0]%index_is_Some.
  { rewrite <-Hp. apply index_is_Some. eauto. }
  pose proof (Hall _ _ Hd Hj0) as Hle.
  apply index_Some in Hj0 as [Hj0 _]. rewrite <-Hpre in Hj0 by done.
  pose proof (index_le_lookup _ _ _ _ Hj Hj0). lia.
Qed.

Lemma for_index_Ok warn fuel k n names w names' :
  for_index deps tm warn fuel (seq k n) names = (w, Ok names') →
  (∀ i, i < k → settled_at deps tm i names) →
  names' ≡ₚ names ∧ take k names' = take k names ∧
  ∀ i, i < k + n → settled_at deps tm i names'.
Proof.
  revert k names w. induction n as [|n IH]; intros k names w; simpl.
  - intros [= <- <-] Hs. split_and!; [done..|]. intros i Hi. apply Hs. lia.
  - destruct (settle deps tm warn fuel k ∅ names) as [w1 [names1| |]] eqn:Hst; [|done..].
    destruct (for_index deps tm warn fuel (seq (S k) n) names1) as [w2 r2] eqn:Hrec.
    intros [= <- ->] Hs.
    apply settle_Ok in Hst as (Hp1 & Htk1 & Hs1).
    apply IH in Hrec as (Hp2 & Htk2 & Hs2).
    + split_and!.
      * by rewrite Hp2.
      * rewrite <-Htk1. apply (take_eq_le k (S k)); [lia|done].
      * intros i Hi. apply Hs2. lia.
    + intros i Hi. destruct (decide (i = k)) as [->|]; [done|].
      eapply settled_at_stable; [apply Hs; lia|done|].
      apply (take_eq_le (S i) k); [lia|done].
Qed.
End resolver_facts.

(** ** The lookup table of the items *)

Section thingmap_facts.
Context {T : Type} (name : T → string).

Lemma thingmap_snoc things t :
  thingmap name (things ++ [t]) = <[name t := t]> (thingmap name things).
Proof.
  unfold thingmap, dict_of. rewrite fmap_app. simpl.
  rewrite zip_with_app by (by rewrite length_fmap).
  by rewrite foldl_app.
Qed.

Lemma thingmap_lookup_Some things n t :
  thingmap name things !! n = Some t → t ∈ things ∧ name t = n.
Proof.
  induction things as [|t' things IH] using rev_ind; [done|].
  rewrite thingmap_snoc, lookup_insert. case_decide as Hn.
  - intros [= ->]. split; [|done]. apply elem_of_app. right. by apply list_elem_of_singleton.
  - intros [??]%IH. split; [|done]. apply elem_of_app. by left.
Qed.

Lemma thingmap_is_Some things n :
  n ∈ name <$> things → is_Some (thingmap name things !! n).
Proof.
  induction things as [|t' things IH] using rev_ind.
  - by intros ?%elem_of_nil.
  - rewrite fmap_app, elem_of_app, thingmap_snoc, lookup_insert. simpl.
    intros [Hn|Hn%list_elem_of_singleton]; case_decide; eauto. congruence.
Qed.

Lemma thingmap_NoDup things t :
  NoDup (name <$> things) → t ∈ things → thingmap name things !! name t = Some t.
Proof.
  induction things as [|t' things IH] using rev_ind; [by intros _ ?%elem_of_nil|].
  rewrite fmap_app, NoDup_app, thingmap_snoc, lookup_insert. simpl.
  intros (Hnd & Hdisj & _) [Ht|Ht%list_elem_of_singleton]%elem_of_app; [|subst t'].
  - case_decide as Heq; [|by apply IH].
    exfalso. apply (Hdisj (name t)).
    + apply list_elem_of_fmap. eauto.
    + rewrite Heq. apply list_elem_of_singleton. done.
  - by rewrite decide_True.
Qed.
End thingmap_facts.

(** ** Termination of the [while] loop *)

Lemma size_list_to_set_le (l : list string) :
  size (list_to_set l : gset string) ≤ length l.
Proof.
  induction l as [|x l IH].
  - change (list_to_set [] : gset string) with (∅ : gset string). by rewrite size_empty.
  - change (list_to_set (x :: l) : gset string) with ({[x]} ∪ list_to_set l : gset string).
    rewrite size_union_alt, size_singleton. simpl.
    assert (size (list_to_set l ∖ {[x]} : gset string) ≤ size (list_to_set l : gset string))
      by (apply subseteq_size; set_solver).
    lia.
Qed.

Section termination.
Context {T : Type} (deps : T → list string) (tm : gmap string T).

Lemma settle_resolved warn fuel idx seen names :
  idx < length names → (∀ n, n ∈ names → is_Some (tm !! n)) →
  size (list_to_set names ∖ seen : gset string) < fuel →
  resolved (settle deps tm warn fuel idx seen names).2.
Proof.
  revert seen names. induction fuel as [|fuel IH]; intros seen names Hidx Htm Hsz; [lia|].
  simpl. destruct (lookup_lt_is_Some_2 _ _ Hidx) as [nm Hnm]. rewrite Hnm.
  case_decide as Hseen; [by right|].
  assert (nm ∈ names) as Hin by (by eapply list_elem_of_lookup_2).
  destruct (Htm _ Hin) as [t Ht]. rewrite Ht.
  destruct (scan_deps warn nm idx names (deps t)) as [w1 r1] eqn:Hscan.
  destruct (scan_deps_inv _ _ _ _ _ _ _ Hscan)
    as [[-> Hall]|(d & j & names1 & -> & Hd & Hj & Hlt & Hmv)].
  - left. by eexists.
  - pose proof (move_Permutation _ _ _ _ Hmv) as Hp.
    specialize (IH ({[nm]} ∪ seen) names1).
    destruct (settle deps tm warn fuel idx ({[nm]} ∪ seen) names1) as [w2 r2].
    simpl in *. apply IH.
    + by rewrite Hp.
    + intros n Hn. apply Htm. by rewrite <-Hp.
    + assert ((list_to_set names1 : gset string) = list_to_set names) as ->.
      { apply set_eq. intros x. rewrite !elem_of_list_to_set. by rewrite Hp. }
      assert (list_to_set names ∖ ({[nm]} ∪ seen) ⊂ (list_to_set names ∖ seen : gset string)) as Hsub.
      { apply strict_spec_alt. split; [set_solver|].
        intros Heq. assert (nm ∈ (list_to_set names ∖ seen : gset string)) as Hx.
        { apply elem_of_difference. split; [by apply elem_of_list_to_set|done]. }
        rewrite <-Heq in Hx. set_solver. }
      apply subset_size in Hsub. lia.
Qed.

Lemma settle_fuel_mono warn fuel fuel' idx seen names :
  fuel ≤ fuel' →
  (settle deps tm warn fuel idx seen names).2 ≠ OutOfFuel →
  settle deps tm warn fuel' idx seen names = settle deps tm warn fuel idx seen names.
Proof.
  revert fuel' seen names. induction fuel as [|fuel IH]; intros fuel' seen names Hle; [done|].
  destruct fuel' as [|fuel']; [lia|]. simpl.
  destruct (names !! idx) as [nm|]; [|done].
  case_decide; [done|]. destruct (tm !! nm) as [t|]; [|done].
  destruct (scan_deps warn nm idx names (deps t)) as [w1 [[names1|]| |]]; [|done..].
  specialize (IH fuel' ({[nm]} ∪ seen) names1).
  destruct (settle deps tm warn fuel idx ({[nm]} ∪ seen) names1) as [w2 r2].
  simpl. intros Hr. rewrite IH; [done|lia|done].
Qed.

Lemma for_index_fuel_mono warn fuel fuel' idxs names :
  fuel ≤ fuel' →
  (for_index deps tm warn fuel idxs names).2 ≠ OutOfFuel →
  for_index deps tm warn fuel' idxs names = for_index deps tm warn fuel idxs names.
Proof.
  intros Hle. revert names. induction idxs as [|idx idxs IH]; intros names; [done|].
  simpl. pose proof (settle_fuel_mono warn fuel fuel' idx ∅ names Hle) as Hst.
  destruct (settle deps tm warn fuel idx ∅ names) as [w1 r1].
  destruct r1 as [names1| |]; simpl in *.
  - rewrite Hst by done. specialize (IH names1).
    destruct (for_index deps tm warn fuel idxs names1) as [w2 r2].
    simpl. intros Hr. by rewrite IH.
  - by rewrite Hst.
  - done.
Qed.

Lemma for_index_resolved warn fuel k n names :
  k + n ≤ length names → (∀ x, x ∈ names → is_Some (tm !! x)) →
  length names < fuel →
  resolved (for_index deps tm warn fuel (seq k n) names).2.
Proof.
  revert k names. induction n as [|n IH]; intros k names Hk Htm Hfuel; simpl.
  - left. by eexists.
  - pose proof (settle_resolved warn fuel k ∅ names) as Hres.
    destruct (settle deps tm warn fuel k ∅ names) as [w1 r1] eqn:Hst.
    destruct Hres as [[names1 Hok]| Herr]; [lia|done| |..].
    + pose proof (size_list_to_set_le names).
      assert (size (list_to_set names ∖ ∅ : gset string) ≤ size (list_to_set names : gset string))
        by (apply subseteq_size; set_solver).
      lia.
    + simpl in Hok. subst r1.
      apply settle_Ok in Hst as (Hp & _ & _).
      specialize (IH (S k) names1).
      destruct (for_index deps tm warn fuel (seq (S k) n) names1) as [w2 r2]. simpl in *.
      apply IH; [rewrite Hp; lia| |by rewrite Hp].
      intros x Hx. apply Htm. by rewrite <-Hp.
    + simpl in Herr. subst r1. by right.
Qed.
End termination.

(** ** Cycles of the dependency graph *)

Section graph.
Context {T : Type} (name : T → string) (deps : T → list string).

Lemma tm_edge_dep_edge things a b :
  tm_edge deps (thingmap name things) (name <$> things) a b →
  dep_edge name deps things a b.
Proof.
  intros (t & [Ht Hn]%thingmap_lookup_Some & Hb & HN). by exists t.
Qed.

Lemma dep_edge_tm_edge things a b :
  NoDup (name <$> things) →
  dep_edge name deps things a b →
  tm_edge deps (thingmap name things) (name <$> things) a b.
Proof.
  intros Hnd (t & Ht & <- & Hb & HN). exists t. by rewrite thingmap_NoDup.
Qed.

Context (tm : gmap string T) (N : list string).

Lemma settle_circular warn fuel idx seen names w :
  names ≡ₚ N →
  (∀ s nm, s ∈ seen → names !! idx = Some nm → tc (tm_edge deps tm N) s nm) →
  settle deps tm warn fuel idx seen names = (w, Raise circular) →
  ∃ n, tc (tm_edge deps tm N) n n.
Proof.
  revert seen names w. induction fuel as [|fuel IH]; intros seen names w Hp Hseen; simpl; [done|].
  destruct (names !! idx) as [nm|] eqn:Hnm; [|done].
  case_decide as Hin; [intros _; exists nm; by apply Hseen|].
  destruct (tm !! nm) as [t|] eqn:Ht; [|done].
  destruct (scan_deps warn nm idx names (deps t)) as [w1 r1] eqn:Hscan.
  destruct (scan_deps_inv _ _ _ _ _ _ _ Hscan)
    as [[-> Hall]|(d & j & names1 & -> & Hd & Hj & Hlt & Hmv)]; [done|].
  destruct (settle deps tm warn fuel idx ({[nm]} ∪ seen) names1) as [w2 r2] eqn:Hrec.
  intros [= <- ->]. eapply IH; [| |exact Hrec].
  - rewrite <-Hp. by eapply move_Permutation.
  - intros s nm' Hs Hnm'.
    assert (nm' = d) as ->.
    { erewrite move_lookup in Hnm'; [|by apply Nat.lt_le_incl|done].
      apply index_Some in Hj as [Hj _]. congruence. }
    assert (tm_edge deps tm N nm d) as Hedge.
    { exists t. split_and!; [done..|]. rewrite <-Hp. apply index_is_Some. eauto. }
    apply elem_of_union in Hs as [->%elem_of_singleton|Hs].
    + by apply tc_once.
    + eapply tc_r; [|done]. by apply Hseen.
Qed.

Lemma for_index_circular warn fuel idxs names w :
  names ≡ₚ N →
  for_index deps tm warn fuel idxs names = (w, Raise circular) →
  ∃ n, tc (tm_edge deps tm N) n n.
Proof.
  revert names w. induction idxs as [|idx idxs IH]; intros names w Hp; simpl; [done|].
  destruct (settle deps tm warn fuel idx ∅ names) as [w1 r1] eqn:Hst.
  destruct r1 as [names1|e|].
  - destruct (for_index deps tm warn fuel idxs names1) as [w2 r2] eqn:Hrec.
    intros [= <- ->]. eapply IH; [|done].
    apply settle_Ok in Hst as (Hp1 & _). by rewrite Hp1.
  - intros [= <- ->]. eapply settle_circular; [done| |done].
    intros s nm Hs. by apply elem_of_empty in Hs.
  - done.
Qed.

(** positions in a settled list decrease along the edges *)
Lemma settled_edge names a b :
  names ≡ₚ N →
  (∀ i, i < length names → settled_at deps tm i names) →
  a ∈ N → tm_edge deps tm N a b →
  ∃ i j, index a names = Some i ∧ index b names = Some j ∧ j ≤ i ∧ (j = i → a = b).
Proof.
  intros Hp Hs Ha (t & Ht & Hb & HbN).
  rewrite <-Hp in Ha, HbN.
  apply index_is_Some in Ha as [i Hi]. apply index_is_Some in HbN as [j Hj].
  exists i, j. split_and!; [done..| |].
  - destruct (Hs i) as (nm & t' & Hnm & Ht' & Hall); [by eapply index_lt|].
    apply index_Some in Hi as [Hi _]. assert (nm = a) as -> by congruence.
    assert (t' = t) as -> by congruence. by eapply Hall.
  - intros ->. apply index_Some in Hi as [Hi _]. apply index_Some in Hj as [Hj _]. congruence.
Qed.

Lemma settled_path names a b :
  names ≡ₚ N →
  (∀ i, i < length names → settled_at deps tm i names) →
  a ∈ N → tc (tm_edge deps tm N) a b →
  ∃ i j, index a names = Some i ∧ index b names = Some j ∧ j ≤ i ∧ (j = i → a = b).
Proof.
  intros Hp Hs Ha Hab. induction Hab as [a b Hab|a b c Hab Hbc IH].
  - by apply settled_edge.
  - destruct (settled_edge names a b) as (i & j & Hi & Hj & Hle & Heq); [done..|].
    destruct IH as (j' & k & Hj' & Hk & Hle' & Heq').
    { destruct Hab as (? & ? & ? & ?). done. }
    assert (j' = j) as -> by congruence.
    exists i, k. split_and!; [done..|lia|].
    intros ->. assert (j = i) as -> by lia. rewrite Heq by done. by apply Heq'.
Qed.
End graph.

(** ** The run as a whole *)

Section lookup_all_facts.
Context {T : Type} (tm : gmap string T).

Lemma lookup_all_Ok names out :
  lookup_all tm names = Ok out ↔ Forall2 (λ n t, tm !! n = Some t) names out.
Proof.
  revert out. induction names as [|n names IH]; intros out; simpl.
  - split; [intros [= <-]; constructor|by intros ->%Forall2_nil_inv_l].
  - split.
    + destruct (tm !! n) as [t|] eqn:Ht; [|done].
      destruct (lookup_all tm names) as [ts| |]; [|done..].
      intros [= <-]. constructor; [done|]. by apply IH.
    + intros (t & ts & Ht & Hts & ->)%Forall2_cons_inv_l.
      rewrite Ht. apply IH in Hts. by rewrite Hts.
Qed.

Lemma lookup_all_is_Ok names :
  (∀ n, n ∈ names → is_Some (tm !! n)) → is_Ok (lookup_all tm names).
Proof.
  induction names as [|n names IH]; intros Hall; simpl; [by eexists|].
  destruct (Hall n) as [t ->]; [apply elem_of_cons; by left|].
  destruct IH as [ts ->]; [|by eexists].
  intros n' Hn'. apply Hall. apply elem_of_cons. by right.
Qed.

Lemma lookup_all_omap names out :
  lookup_all tm names = Ok out → out = omap (tm !!.) names.
Proof.
  intros H%lookup_all_Ok. induction H as [|n t names out Ht _ IH]; [done|].
  simpl. rewrite Ht. by f_equal.
Qed.
End lookup_all_facts.

Section solve_facts.
Context {T : Type} (name : T → string) (deps : T → list string).

Local Abbreviation solve := (solve_dependencies name deps).
Local Abbreviation solve_fuel := (solve_dependencies_fuel name deps).

(** The two ways a run ends, with what is known of the final list of names *)
Lemma solve_dependencies_fuel_cases fuel things warn :
  length things < fuel →
  let tm := thingmap name things in
  let N := name <$> things in
  (∃ w names out,
      solve_fuel fuel things warn = (w, Ok out) ∧
      for_index deps tm warn fuel (seq 0 (length N)) N = (w, Ok names) ∧
      names ≡ₚ N ∧
      (∀ i, i < length names → settled_at deps tm i names) ∧
      Forall2 (λ n t, tm !! n = Some t) names out) ∨
  (∃ w, solve_fuel fuel things warn = (w, Raise circular) ∧
        ∃ n, tc (tm_edge deps tm N) n n).
Proof.
  intros Hfuel tm N. unfold solve_dependencies_fuel. fold tm N.
  assert (∀ n, n ∈ N → is_Some (tm !! n)) as Htm by apply thingmap_is_Some.
  pose proof (for_index_resolved deps tm warn fuel 0 (length N) N) as Hres.
  destruct (for_index deps tm warn fuel (seq 0 (length N)) N) as [w r] eqn:Hfor.
  destruct Hres as [[names Hok]|Herr]; [simpl; lia|done|unfold N; rewrite length_fmap; lia|..];
    simpl in *; subst r.
  - left. apply for_index_Ok in Hfor as Hinv; [|intros i Hi; lia].
    destruct Hinv as (Hp & _ & Hs).
    destruct (lookup_all_is_Ok tm names) as [out Hout].
    { intros n Hn. apply Htm. by rewrite <-Hp. }
    exists w, names, out. rewrite Hout. split_and!; [done..| |by apply lookup_all_Ok].
    intros i Hi. apply Hs. rewrite Hp in Hi. simpl. lia.
  - right. exists w. split; [done|]. by eapply for_index_circular.
Qed.

Lemma Forall2_lookup_name things names out :
  Forall2 (λ n t, thingmap name things !! n = Some t) names out →
  name <$> out = names.
Proof.
  induction 1 as [|n t names out Ht _ IH]; [done|].
  apply thingmap_lookup_Some in Ht as [_ Hn]. rewrite fmap_cons. by f_equal.
Qed.

Lemma omap_thingmap things :
  NoDup (name <$> things) →
  omap (thingmap name things !!.) (name <$> things) = things.
Proof.
  intros Hnd.
  assert (∀ l : list T, (∀ t, t ∈ l → t ∈ things) →
    omap (thingmap name things !!.) (name <$> l) = l) as Hgen.
  { induction l as [|t l IH]; intros Hl; [done|]. simpl.
    rewrite thingmap_NoDup; [|done|apply Hl, elem_of_cons; by left].
    f_equal. apply IH. intros t' Ht'. apply Hl, elem_of_cons. by right. }
  by apply Hgen.
Qed.

Lemma solve_dependencies_Permutation things warn out :
  NoDup (name <$> things) → (solve things warn).2 = Ok out → out ≡ₚ things.
Proof.
  intros Hnd Hsolve.
  destruct (solve_dependencies_fuel_cases (S (length things)) things warn)
    as [(w & names & out' & Hs & _ & Hp & _ & Hout)|(w & Hs & _)]; [lia|..];
    unfold solve_dependencies in Hsolve; rewrite Hs in Hsolve; [|done].
  simpl in Hsolve. injection Hsolve as ->.
  apply lookup_all_Ok, lookup_all_omap in Hout as ->.
  rewrite Hp. by rewrite omap_thingmap.
Qed.
End solve_facts.

(** ** Ordering, cycles and termination *)

Section solve_theorems.
Context {T : Type} (name : T → string) (deps : T → list string).

Local Abbreviation solve := (solve_dependencies name deps).
Local Abbreviation solve_fuel := (solve_dependencies_fuel name deps).

(** C1. For a sequence of items with pairwise distinct names whose dependency
    graph over the names of the sequence has no cycle, [solve_dependencies]
    returns a permutation of the items in which every dependency of an item
    that is the name of an item of the sequence stands at a strictly earlier
    position than the item itself. *)
Theorem solve_dependencies_sorts things warn :
  NoDup (name <$> things) → acyclic name deps things →
  ∃ out, (solve things warn).2 = Ok out ∧ out ≡ₚ things ∧
    ∀ p x d, out !! p = Some x → d ∈ deps x → d ∈ name <$> things →
      ∃ q y, q < p ∧ out !! q = Some y ∧ name y = d.
Proof.
  intros Hnd Hacyc.
  destruct (solve_dependencies_fuel_cases name deps (S (length things)) things warn)
    as [(w & names & out & Hsolve & _ & Hp & Hs & Hout)|(w & _ & n & Hn)]; [lia|..].
  - exists out. unfold solve_dependencies. rewrite Hsolve. split_and!; [done|..].
    + apply lookup_all_Ok, lookup_all_omap in Hout as ->.
      rewrite Hp. by rewrite omap_thingmap.
    + intros p x d Hx Hd HdN.
      destruct (Forall2_lookup_r _ _ _ _ _ Hout Hx) as (n & Hn & Htx).
      destruct (Hs p) as (nm & t & Hnm & Ht & Hall); [by eapply lookup_lt_Some|].
      assert (nm = n) as -> by congruence. assert (t = x) as -> by congruence.
      rewrite <-Hp in HdN. apply index_is_Some in HdN as [q Hq].
      pose proof (Hall _ _ Hd Hq) as Hle.
      apply index_Some in Hq as [Hq _].
      destruct (Forall2_lookup_l _ _ _ _ _ Hout Hq) as (y & Hy & Hty).
      exists q, y. split_and!; [|done|by apply thingmap_lookup_Some in Hty as [_ ?]].
      destruct (decide (q = p)) as [->|]; [|lia].
      exfalso. assert (d = n) as -> by congruence.
      apply (Hacyc n), tc_once. exists x.
      apply thingmap_lookup_Some in Htx as [??].
      split_and!; [done..|]. rewrite <-Hp. by eapply list_elem_of_lookup_2.
  - exfalso. apply (Hacyc n). eapply tc_mono; [|done].
    intros a b. apply tm_edge_dep_edge.
Qed.

(** C2, as the code has it. For a sequence of items with pairwise distinct
    names and a dependency cycle through two different names of the
    sequence, [solve_dependencies] returns no list: it raises the
    [RuntimeError] whose message is the fixed text of [circular], which has
    no argument and so names no item. *)
Theorem solve_dependencies_cycle things warn a b :
  NoDup (name <$> things) →
  a ≠ b → tc (dep_edge name deps things) a b → tc (dep_edge name deps things) b a →
  (solve things warn).2 = Raise circular ∧
  exn_cls circular = RuntimeError ∧ exn_args circular = [].
Proof.
  intros Hnd Hab Hpab Hpba. split; [|done].
  destruct (solve_dependencies_fuel_cases name deps (S (length things)) things warn)
    as [(w & names & out & Hsolve & _ & Hp & Hs & Hout)|(w & Hsolve & _)]; [lia|..];
    unfold solve_dependencies; rewrite Hsolve; [|done].
  exfalso.
  assert (∀ x y, tc (dep_edge name deps things) x y →
            tc (tm_edge deps (thingmap name things) (name <$> things)) x y) as Hsub.
  { intros x y. apply tc_mono. intros ??. by apply dep_edge_tm_edge. }
  assert (∀ x y, tc (dep_edge name deps things) x y → x ∈ name <$> things) as Hdom.
  { intros x y Hxy.
    destruct Hxy as [x y (t & Ht & <- & _)|x y z (t & Ht & <- & _) _];
      by apply list_elem_of_fmap_2. }
  destruct (settled_path deps (thingmap name things) (name <$> things) names a b)
    as (i & j & Hi & Hj & Hle & _); [done|done|by eapply Hdom|by apply Hsub|].
  destruct (settled_path deps (thingmap name things) (name <$> things) names b a)
    as (j' & i' & Hj' & Hi' & Hle' & Heq); [done|done|by eapply Hdom|by apply Hsub|].
  assert (i' = i) as -> by congruence. assert (j' = j) as -> by congruence.
  apply Hab. symmetry. apply Heq. lia.
Qed.

(** C10. [solve_dependencies] runs to completion on every sequence: it
    returns a list or raises the circular dependency error, the fuel of the
    [while] loop is never used up, and any larger fuel gives the same
    result. A pass of the loop at one index adds a name of the sequence to
    [seen_names] or raises, which bounds the passes by the number of
    names. *)
Theorem solve_dependencies_terminates things warn :
  resolved (solve things warn).2 ∧
  ∀ fuel, length things < fuel → solve_fuel fuel things warn = solve things warn.
Proof.
  split.
  - destruct (solve_dependencies_fuel_cases name deps (S (length things)) things warn)
      as [(w & names & out & Hsolve & _)|(w & Hsolve & _)]; [lia|..];
      unfold solve_dependencies; rewrite Hsolve; [left; by eexists|by right].
  - intros fuel Hfuel. unfold solve_dependencies, solve_dependencies_fuel.
    rewrite (for_index_fuel_mono deps _ warn (S (length things)) fuel); [done|lia|].
    pose proof (for_index_resolved deps (thingmap name things) warn (S (length things)) 0
      (length (name <$> things)) (name <$> things)) as Hres.
    destruct Hres as [[? Hr]|Hr]; [simpl; lia|apply thingmap_is_Some|rewrite length_fmap; lia|..];
      by rewrite Hr.
Qed.
End solve_theorems.

(** ** The runs of the examples *)

Lemma acyclic_rank {T} (name : T → string) (deps : T → list string) things
    (rank : string → nat) :
  (∀ a b, dep_edge name deps things a b → rank b < rank a) →
  acyclic name deps things.
Proof.
  intros Hrank n Hn.
  assert (∀ a b, tc (dep_edge name deps things) a b → rank b < rank a) as Htc.
  { induction 1 as [a b Hab|a b c Hab _ IH]; [by apply Hrank|].
    apply Hrank in Hab. lia. }
  apply Htc in Hn. lia.
Qed.

Lemma tc_first_edge {A} (R : relation A) x y : tc R x y → ∃ z, R x z.
Proof. destruct 1; eauto. Qed.

Lemma items_cab_acyclic : acyclic i_name i_deps items_cab.
Proof.
  apply (acyclic_rank _ _ _ (λ n, if decide (n = "a") then 0 else 1)).
  intros a b (t & Ht & <- & Hb & _). unfold items_cab in Ht.
  rewrite !elem_of_cons, elem_of_nil in Ht.
  destruct Ht as [->|[->|[->|[]]]]; simpl in Hb;
    rewrite ?elem_of_cons, ?elem_of_nil in Hb; destruct_or?; subst; try done;
    simpl; lia.
Qed.

Lemma items_cycle_edges :
  dep_edge i_name i_deps items_cycle "A" "B" ∧
  dep_edge i_name i_deps items_cycle "B" "C" ∧
  dep_edge i_name i_deps items_cycle "C" "A".
Proof.
  unfold items_cycle. split_and!.
  - dep_edge_of (Item "A" ["B"]).
  - dep_edge_of (Item "B" ["C"]).
  - dep_edge_of (Item "C" ["A"]).
Qed.

Lemma solve_dependencies_sorts_witness :
  ∃ out, (solve_items items_cab true).2 = Ok out ∧ out ≡ₚ items_cab ∧
    ∀ p x d, out !! p = Some x → d ∈ i_deps x → d ∈ i_name <$> items_cab →
      ∃ q y, q < p ∧ out !! q = Some y ∧ i_name y = d.
Proof.
  apply (solve_dependencies_sorts i_name i_deps items_cab true).
  - apply (bool_decide_unpack _). vm_compute. exact I.
  - exact items_cab_acyclic.
Defined.

Lemma solve_dependencies_cycle_witness :
  (solve_items items_cycle true).2 = Raise circular ∧
  exn_cls circular = RuntimeError ∧ exn_args circular = [].
Proof.
  apply (solve_dependencies_cycle i_name i_deps items_cycle true "A" "B").
  - apply (bool_decide_unpack _). vm_compute. exact I.
  - discriminate.
  - apply tc_once, items_cycle_edges.
  - eapply tc_l; [apply items_cycle_edges|]. apply tc_once, items_cycle_edges.
Defined.

(** C2 as stated fails. The chain A -> B -> C -> A raises an error that
    carries no name; an item that lists itself is a cycle and raises
    nothing; and with two items of one name a cycle can go unseen. *)
Lemma solve_dependencies_cycle_counterexample :
  (tc (dep_edge i_name i_deps items_cycle) "A" "A" ∧
   (solve_items items_cycle true).2 = Raise circular ∧
   exn_args circular = []) ∧
  (tc (dep_edge i_name i_deps items_self) "a" "a" ∧
   (solve_items items_self true).2 = Ok items_self) ∧
  (tc (dep_edge i_name i_deps items_dup) "A" "A" ∧
   (solve_items items_dup true).2
   = Ok [Item "A" []; Item "B" ["A"]; Item "A" []]).
Proof.
  split_and!.
  - eapply tc_l; [apply items_cycle_edges|].
    eapply tc_l; [apply items_cycle_edges|]. apply tc_once, items_cycle_edges.
  - vm_compute. reflexivity.
  - reflexivity.
  - apply tc_once. unfold items_self. dep_edge_of (Item "a" ["a"]).
  - vm_compute. reflexivity.
  - eapply tc_l; [|apply tc_once].
    + unfold items_dup. dep_edge_of (Item "A" ["B"]).
    + unfold items_dup. dep_edge_of (Item "B" ["A"]).
  - vm_compute. reflexivity.
Qed.

Lemma solve_dependencies_terminates_witness :
  solve_dependencies_fuel i_name i_deps 10 items_cycle true
  = solve_items items_cycle true.
Proof.
  apply (proj2 (solve_dependencies_terminates i_name i_deps items_cycle true) 10).
  simpl. lia.
Defined.

(** ** Idempotence *)

Section idempotence.
Context {T : Type} (name : T → string) (deps : T → list string).

Lemma scan_deps_settled warn nm idx names ds :
  (∀ d j, d ∈ ds → index d names = Some j → j ≤ idx) →
  ∃ w, scan_deps warn nm idx names ds = (w, Ok None).
Proof.
  induction ds as [|dep ds IH]; intros Hall; simpl; [by eexists|].
  destruct IH as [w Hw].
  { intros d j Hd. apply Hall, elem_of_cons. by right. }
  rewrite Hw. destruct (index dep names) as [j|] eqn:Hj; [|by eexists].
  rewrite decide_False; [by eexists|].
  assert (j ≤ idx); [|lia]. eapply Hall; [|done]. apply elem_of_cons. by left.
Qed.

Lemma settle_settled tm warn fuel idx seen names :
  settled_at deps tm idx names → seen = ∅ →
  ∃ w, settle deps tm warn (S fuel) idx seen names = (w, Ok names).
Proof.
  intros (nm & t & Hnm & Ht & Hall) ->. simpl. rewrite Hnm.
  rewrite decide_False by set_solver. rewrite Ht.
  destruct (scan_deps_settled warn nm idx names (deps t) Hall) as [w ->]. by eexists.
Qed.

Lemma for_index_settled tm warn fuel idxs names :
  (∀ i, i ∈ idxs → settled_at deps tm i names) →
  ∃ w, for_index deps tm warn (S fuel) idxs names = (w, Ok names).
Proof.
  induction idxs as [|idx idxs IH]; intros Hall; [by eexists|].
  cbn [for_index].
  destruct (settle_settled tm warn fuel idx ∅ names) as [w1 ->]; [|done|].
  { apply Hall, elem_of_cons. by left. }
  destruct IH as [w2 ->]; [|by eexists].
  intros i Hi. apply Hall, elem_of_cons. by right.
Qed.

Lemma thingmap_resolved_agree things names out n :
  Forall2 (λ n t, thingmap name things !! n = Some t) names out →
  n ∈ names → thingmap name out !! n = thingmap name things !! n.
Proof.
  intros Hout Hn. pose proof (Forall2_lookup_name _ _ _ _ Hout) as Hnames.
  destruct (thingmap_is_Some name out n) as [t Ht]; [by rewrite Hnames|].
  rewrite Ht. apply thingmap_lookup_Some in Ht as [Hin Hnt].
  apply list_elem_of_lookup in Hin as [i Hi].
  destruct (Forall2_lookup_r _ _ _ _ _ Hout Hi) as (n' & _ & Hn').
  apply thingmap_lookup_Some in Hn' as Hn''. destruct Hn'' as [_ Heq].
  congruence.
Qed.

(** C3. [solve_dependencies] is idempotent: when it returns [out] for a
    sequence, it returns [out] again for [out]. *)
Theorem solve_dependencies_idempotent things warn warn' out :
  (solve_dependencies name deps things warn).2 = Ok out →
  (solve_dependencies name deps out warn').2 = Ok out.
Proof.
  intros Hsolve.
  destruct (solve_dependencies_fuel_cases name deps (S (length things)) things warn)
    as [(w & names & out' & Hs & _ & Hp & Hset & Hout)|(w & Hs & _)]; [lia|..];
    unfold solve_dependencies in Hsolve; rewrite Hs in Hsolve; [|done].
  simpl in Hsolve. injection Hsolve as ->.
  pose proof (Forall2_lookup_name _ _ _ _ Hout) as Hnames.
  unfold solve_dependencies, solve_dependencies_fuel. rewrite Hnames.
  destruct (for_index_settled (thingmap name out) warn' (length out)
              (seq 0 (length names)) names) as [w' ->].
  { intros i Hi%elem_of_seq.
    destruct (Hset i) as (nm & t & Hnm & Ht & Hall); [lia|].
    exists nm, t. split_and!; [done| |done].
    rewrite (thingmap_resolved_agree things names out); [done..|].
    by eapply list_elem_of_lookup_2. }
  simpl. apply lookup_all_Ok.
  apply Forall2_same_length_lookup. split; [by eapply Forall2_length|].
  intros i n t Hn Ht.
  rewrite (thingmap_resolved_agree things names out); [|done|by eapply list_elem_of_lookup_2].
  destruct (Forall2_lookup_l _ _ _ _ _ Hout Hn) as (t' & Ht' & ?). congruence.
Qed.
End idempotence.

Lemma solve_dependencies_idempotent_witness :
  (solve_items [Item "a" []; Item "c" ["a"]; Item "b" ["a"]] true).2
  = Ok [Item "a" []; Item "c" ["a"]; Item "b" ["a"]].
Proof.
  apply (solve_dependencies_idempotent i_name i_deps items_cab false true).
  vm_compute. reflexivity.
Defined.

(** ** What keeps its place *)

Section stability.
Context {T : Type} (name : T → string) (deps : T → list string).

Context (things : list T).
Let tm := thingmap name things.

Lemma settle_unpulled warn fuel idx seen names w names' :
  settle deps tm warn fuel idx seen names = (w, Ok names') →
  filter (λ n, ¬ pulled name deps things n) names'
  = filter (λ n, ¬ pulled name deps things n) names.
Proof.
  revert seen names w. induction fuel as [|fuel IH]; intros seen names w; simpl; [done|].
  destruct (names !! idx) as [nm|] eqn:Hnm; [|done].
  case_decide; [done|].
  destruct (tm !! nm) as [t|] eqn:Ht; [|done].
  destruct (scan_deps warn nm idx names (deps t)) as [w1 r1] eqn:Hscan.
  destruct (scan_deps_inv _ _ _ _ _ _ _ Hscan)
    as [[-> Hall]|(d & j & names1 & -> & Hd & Hj & Hlt & Hmv)].
  - by intros [= <- <-].
  - destruct (settle deps tm warn fuel idx ({[nm]} ∪ seen) names1) as [w2 r2] eqn:Hrec.
    intros [= <- ->]. rewrite (IH _ _ _ Hrec).
    pose proof Hj as [Hjd Hmin]%index_Some.
    eapply move_filter; [done..|].
    intros Hnp. apply Hnp. apply Exists_exists. exists t.
    apply thingmap_lookup_Some in Ht as [Hin Hname].
    split_and!; [done| |done].
    rewrite Hname. intros ->. by apply (Hmin idx).
Qed.

Lemma for_index_unpulled warn fuel idxs names w names' :
  for_index deps tm warn fuel idxs names = (w, Ok names') →
  filter (λ n, ¬ pulled name deps things n) names'
  = filter (λ n, ¬ pulled name deps things n) names.
Proof.
  revert names w. induction idxs as [|idx idxs IH]; intros names w; simpl.
  - by intros [= <- <-].
  - destruct (settle deps tm warn fuel idx ∅ names) as [w1 [names1| |]] eqn:Hst; [|done..].
    destruct (for_index deps tm warn fuel idxs names1) as [w2 r2] eqn:Hrec.
    intros [= <- ->]. rewrite (IH _ _ Hrec). by eapply settle_unpulled.
Qed.

Lemma solve_dependencies_unpulled warn out :
  (solve_dependencies name deps things warn).2 = Ok out →
  filter (λ n, ¬ pulled name deps things n) (name <$> out)
  = filter (λ n, ¬ pulled name deps things n) (name <$> things).
Proof.
  intros Hsolve.
  destruct (solve_dependencies_fuel_cases name deps (S (length things)) things warn)
    as [(w & names & out' & Hs & Hfor & Hp & Hset & Hout)|(w & Hs & _)]; [lia|..];
    unfold solve_dependencies in Hsolve; rewrite Hs in Hsolve; [|done].
  simpl in Hsolve. injection Hsolve as ->.
  rewrite (Forall2_lookup_name _ _ _ _ Hout). by eapply for_index_unpulled.
Qed.
End stability.

(** C5, as the code has it. The sequence of [c], [a] and [b], where [c] and
    [b] need [a], is returned as [a], [c], [b]; and whenever
    [solve_dependencies] returns a list, the names that no item of another
    name lists as a dependency stand in it in their original order. *)
Theorem solve_dependencies_stable :
  (solve_items items_cab false).2
  = Ok [Item "a" []; Item "c" ["a"]; Item "b" ["a"]] ∧
  ∀ (T : Type) (name : T → string) (deps : T → list string) things warn out,
    (solve_dependencies name deps things warn).2 = Ok out →
    filter (λ n, ¬ pulled name deps things n) (name <$> out)
    = filter (λ n, ¬ pulled name deps things n) (name <$> things).
Proof.
  split; [vm_compute; reflexivity|].
  intros T name deps things warn out. apply solve_dependencies_unpulled.
Qed.

Lemma solve_dependencies_stable_witness :
  filter (λ n, ¬ pulled i_name i_deps items_cab n)
         (i_name <$> [Item "a" []; Item "c" ["a"]; Item "b" ["a"]])
  = filter (λ n, ¬ pulled i_name i_deps items_cab n) (i_name <$> items_cab).
Proof.
  apply (proj2 solve_dependencies_stable item i_name i_deps items_cab false).
  vm_compute. reflexivity.
Defined.

(** C5 as stated fails: [y] and [z] do not depend on each other, [y] stands
    before [z] in the input, and [z] is returned before [y]. *)
Lemma solve_dependencies_stable_counterexample :
  (solve_items items_xyz false).2
  = Ok [Item "z" []; Item "x" ["z"]; Item "y" []] ∧
  ¬ tc (dep_edge i_name i_deps items_xyz) "y" "z" ∧
  ¬ tc (dep_edge i_name i_deps items_xyz) "z" "y".
Proof.
  split; [vm_compute; reflexivity|].
  assert (∀ a b, dep_edge i_name i_deps items_xyz a b → a = "x") as Hedge.
  { intros a b (t & Ht & <- & Hb & _). unfold items_xyz in Ht.
    rewrite !elem_of_cons, elem_of_nil in Ht.
    destruct Ht as [->|[->|[->|[]]]]; simpl in Hb;
      rewrite ?elem_of_cons, ?elem_of_nil in Hb; destruct_or?; subst; done. }
  split; intros [z Hz%Hedge]%tc_first_edge; discriminate.
Qed.

(** ** Missing dependencies and the warnings *)

Section warnings.
Context {T : Type} (name : T → string) (deps : T → list string).
Context (tm : gmap string T).

Lemma count_app {A} `{EqDecision A} (x : A) l1 l2 :
  count x (l1 ++ l2) = count x l1 + count x l2.
Proof. unfold count. by rewrite filter_app, length_app. Qed.

Lemma scan_deps_flag warn nm idx names ds :
  (scan_deps warn nm idx names ds).2 = (scan_deps false nm idx names ds).2.
Proof.
  induction ds as [|dep ds IH]; simpl; [done|].
  destruct (index dep names) as [j|]; [by case_decide|].
  destruct (scan_deps warn nm idx names ds), (scan_deps false nm idx names ds). done.
Qed.

Lemma scan_deps_quiet nm idx names ds :
  (scan_deps false nm idx names ds).1 = [].
Proof.
  induction ds as [|dep ds IH]; simpl; [done|].
  destruct (index dep names) as [j|].
  - case_decide; [by destruct (move j idx names)|done].
  - by destruct (scan_deps false nm idx names ds).
Qed.

Lemma settle_flag warn fuel idx seen names :
  (settle deps tm warn fuel idx seen names).2
  = (settle deps tm false fuel idx seen names).2.
Proof.
  revert seen names. induction fuel as [|fuel IH]; intros seen names; simpl; [done|].
  destruct (names !! idx) as [nm|]; [|done]. case_decide; [done|].
  destruct (tm !! nm) as [t|]; [|done].
  pose proof (scan_deps_flag warn nm idx names (deps t)) as Hscan.
  destruct (scan_deps warn nm idx names (deps t)) as [w1 r1],
    (scan_deps false nm idx names (deps t)) as [w1' r1']. simpl in Hscan. subst r1'.
  destruct r1 as [[names1|]| |]; [|done..].
  specialize (IH ({[nm]} ∪ seen) names1).
  by destruct (settle deps tm warn fuel idx ({[nm]} ∪ seen) names1),
    (settle deps tm false fuel idx ({[nm]} ∪ seen) names1).
Qed.

Lemma settle_quiet fuel idx seen names :
  (settle deps tm false fuel idx seen names).1 = [].
Proof.
  revert seen names. induction fuel as [|fuel IH]; intros seen names; simpl; [done|].
  destruct (names !! idx) as [nm|]; [|done]. case_decide; [done|].
  destruct (tm !! nm) as [t|]; [|done].
  pose proof (scan_deps_quiet nm idx names (deps t)) as Hscan.
  destruct (scan_deps false nm idx names (deps t)) as [w1 r1]. simpl in Hscan. subst w1.
  destruct r1 as [[names1|]| |]; [|done..].
  specialize (IH ({[nm]} ∪ seen) names1).
  by destruct (settle deps tm false fuel idx ({[nm]} ∪ seen) names1).
Qed.

Lemma for_index_flag warn fuel idxs names :
  (for_index deps tm warn fuel idxs names).2
  = (for_index deps tm false fuel idxs names).2.
Proof.
  revert names. induction idxs as [|idx idxs IH]; intros names; simpl; [done|].
  pose proof (settle_flag warn fuel idx ∅ names) as Hst.
  destruct (settle deps tm warn fuel idx ∅ names) as [w1 r1],
    (settle deps tm false fuel idx ∅ names) as [w1' r1']. simpl in Hst. subst r1'.
  destruct r1 as [names1| |]; [|done..].
  specialize (IH names1).
  by destruct (for_index deps tm warn fuel idxs names1),
    (for_index deps tm false fuel idxs names1).
Qed.

Lemma for_index_quiet fuel idxs names :
  (for_index deps tm false fuel idxs names).1 = [].
Proof.
  revert names. induction idxs as [|idx idxs IH]; intros names; simpl; [done|].
  pose proof (settle_quiet fuel idx ∅ names) as Hst.
  destruct (settle deps tm false fuel idx ∅ names) as [w1 r1]. simpl in Hst. subst w1.
  destruct r1 as [names1| |]; [|done..].
  specialize (IH names1).
  by destruct (for_index deps tm false fuel idxs names1).
Qed.
End warnings.

Section warning_log.
Context {T : Type} (name : T → string) (deps : T → list string).
Context (tm : gmap string T).

Lemma count_cons {A} `{EqDecision A} (x y : A) l :
  count x (y :: l) = (if decide (x = y) then 1 else 0) + count x l.
Proof. unfold count. rewrite filter_cons. by case_decide. Qed.

Lemma scan_deps_log warn nm idx names ds w r x :
  scan_deps warn nm idx names ds = (w, r) → x ∈ w →
  w_name x = nm ∧ w_dep x ∈ ds ∧ (w_dep x ∉ names).
Proof.
  revert w r. induction ds as [|dep ds IH]; intros w r; simpl.
  - intros [= <- <-] ?%elem_of_nil. done.
  - destruct (index dep names) as [j|] eqn:Hj.
    + case_decide.
      * destruct (move j idx names); intros [= <- <-] ?%elem_of_nil; done.
      * intros Hscan Hx. destruct (IH _ _ Hscan Hx) as (? & ? & ?).
        split_and!; [done| |done]. apply elem_of_cons. by right.
    + destruct (scan_deps warn nm idx names ds) as [w' r'] eqn:Hscan.
      intros [= <- <-] [Hx|Hx]%elem_of_app.
      * destruct warn; [|by apply elem_of_nil in Hx].
        apply list_elem_of_singleton in Hx as ->. simpl.
        split_and!; [done|apply elem_of_cons; by left|by apply index_None].
      * destruct (IH _ _ eq_refl Hx) as (? & ? & ?).
        split_and!; [done| |done]. apply elem_of_cons. by right.
Qed.

Lemma scan_deps_count nm idx names ds w d :
  scan_deps true nm idx names ds = (w, Ok None) → d ∉ names →
  count d ds ≤ count (Warning nm d) w.
Proof.
  intros Hscan Hd. revert w Hscan. induction ds as [|dep ds IH]; intros w; simpl.
  - intros [= <-]. unfold count. simpl. lia.
  - rewrite count_cons. destruct (index dep names) as [j|] eqn:Hj.
    + assert (d ≠ dep).
      { intros ->. apply Hd, index_is_Some. eauto. }
      rewrite (decide_False (P := d = dep)) by done. case_decide.
      * by destruct (move j idx names).
      * apply IH.
    + destruct (scan_deps true nm idx names ds) as [w' r'] eqn:Hscan.
      intros [= <- ->]. specialize (IH _ eq_refl).
      simpl. rewrite count_cons. 
      destruct (decide (d = dep)) as [->|]; [rewrite decide_True by done; lia|].
      case_decide; lia.
Qed.

Lemma settle_log warn fuel idx seen names w r x :
  settle deps tm warn fuel idx seen names = (w, r) → x ∈ w →
  (w_dep x ∉ names) ∧ ∃ t, tm !! w_name x = Some t ∧ w_dep x ∈ deps t.
Proof.
  revert seen names w r. induction fuel as [|fuel IH]; intros seen names w r; simpl.
  { intros [= <- <-] ?%elem_of_nil. done. }
  destruct (names !! idx) as [nm|] eqn:Hnm; [|intros [= <- <-] ?%elem_of_nil; done].
  case_decide; [intros [= <- <-] ?%elem_of_nil; done|].
  destruct (tm !! nm) as [t|] eqn:Ht; [|intros [= <- <-] ?%elem_of_nil; done].
  destruct (scan_deps warn nm idx names (deps t)) as [w1 r1] eqn:Hscan.
  assert (x ∈ w1 → (w_dep x ∉ names) ∧
            ∃ t, tm !! w_name x = Some t ∧ w_dep x ∈ deps t) as H1.
  { intros Hx. destruct (scan_deps_log _ _ _ _ _ _ _ _ Hscan Hx) as (-> & ? & ?). eauto. }
  destruct (scan_deps_inv _ _ _ _ _ _ _ Hscan)
    as [[-> Hall]|(d & j & names1 & -> & Hd & Hj & Hlt & Hmv)].
  - intros [= <- <-]. done.
  - destruct (settle deps tm warn fuel idx ({[nm]} ∪ seen) names1) as [w2 r2] eqn:Hrec.
    intros [= <- <-] [Hx|Hx]%elem_of_app; [by apply H1|].
    destruct (IH _ _ _ _ Hrec Hx) as [Hnot Hex]. split; [|done].
    by rewrite <-(move_Permutation _ _ _ _ Hmv).
Qed.

Lemma settle_count fuel idx seen names w names' :
  settle deps tm true fuel idx seen names = (w, Ok names') →
  ∃ nm t, names' !! idx = Some nm ∧ tm !! nm = Some t ∧
    ∀ d, d ∉ names' → count d (deps t) ≤ count (Warning nm d) w.
Proof.
  revert seen names w. induction fuel as [|fuel IH]; intros seen names w; simpl; [done|].
  destruct (names !! idx) as [nm|] eqn:Hnm; [|done].
  case_decide; [done|].
  destruct (tm !! nm) as [t|] eqn:Ht; [|done].
  destruct (scan_deps true nm idx names (deps t)) as [w1 r1] eqn:Hscan.
  destruct (scan_deps_inv _ _ _ _ _ _ _ Hscan)
    as [[-> Hall]|(d & j & names1 & -> & Hd & Hj & Hlt & Hmv)].
  - intros [= <- <-]. exists nm, t. split_and!; [done..|].
    intros d Hd. by eapply scan_deps_count.
  - destruct (settle deps tm true fuel idx ({[nm]} ∪ seen) names1) as [w2 r2] eqn:Hrec.
    intros [= <- ->]. destruct (IH _ _ _ Hrec) as (nm' & t' & ? & ? & Hcount).
    exists nm', t'. split_and!; [done..|].
    intros d' Hd'. rewrite count_app. specialize (Hcount d' Hd'). lia.
Qed.

Lemma for_index_take warn fuel k n names w names' :
  for_index deps tm warn fuel (seq k n) names = (w, Ok names') →
  names' ≡ₚ names ∧ take k names' = take k names.
Proof.
  revert k names w. induction n as [|n IH]; intros k names w; simpl.
  - by intros [= <- <-].
  - destruct (settle deps tm warn fuel k ∅ names) as [w1 [names1| |]] eqn:Hst; [|done..].
    destruct (for_index deps tm warn fuel (seq (S k) n) names1) as [w2 r2] eqn:Hrec.
    intros [= <- ->].
    apply settle_Ok in Hst as (Hp1 & Htk1 & _). apply IH in Hrec as (Hp2 & Htk2).
    split; [by rewrite Hp2|]. rewrite <-Htk1. apply (take_eq_le k (S k)); [lia|done].
Qed.

Lemma for_index_log warn fuel idxs names w r x :
  for_index deps tm warn fuel idxs names = (w, r) → x ∈ w →
  (w_dep x ∉ names) ∧ ∃ t, tm !! w_name x = Some t ∧ w_dep x ∈ deps t.
Proof.
  revert names w r. induction idxs as [|idx idxs IH]; intros names w r; simpl.
  { intros [= <- <-] ?%elem_of_nil. done. }
  destruct (settle deps tm warn fuel idx ∅ names) as [w1 r1] eqn:Hst.
  pose proof (settle_log _ _ _ _ _ _ _ x Hst) as H1.
  destruct r1 as [names1| |]; [|by intros [= <- <-]..].
  destruct (for_index deps tm warn fuel idxs names1) as [w2 r2] eqn:Hrec.
  intros [= <- <-] [Hx|Hx]%elem_of_app; [by apply H1|].
  destruct (IH _ _ _ Hrec Hx) as [Hnot Hex]. split; [|done].
  apply settle_Ok in Hst as (Hp & _). by rewrite <-Hp.
Qed.

Lemma for_index_count fuel k n names w names' i :
  for_index deps tm true fuel (seq k n) names = (w, Ok names') →
  k ≤ i < k + n →
  ∃ nm t, names' !! i = Some nm ∧ tm !! nm = Some t ∧
    ∀ d, d ∉ names' → count d (deps t) ≤ count (Warning nm d) w.
Proof.
  revert k names w. induction n as [|n IH]; intros k names w; simpl; [lia|].
  destruct (settle deps tm true fuel k ∅ names) as [w1 [names1| |]] eqn:Hst; [|done..].
  destruct (for_index deps tm true fuel (seq (S k) n) names1) as [w2 r2] eqn:Hrec.
  intros [= <- ->] Hi.
  destruct (decide (i = k)) as [->|Hne].
  - apply settle_count in Hst as (nm & t & Hnm & Ht & Hcount).
    apply for_index_take in Hrec as (Hp & Htk).
    exists nm, t. split_and!; [|done|].
    + rewrite <-Hnm. rewrite <-(lookup_take_lt names' (S k)), <-(lookup_take_lt names1 (S k)) by lia.
      by rewrite Htk.
    + intros d Hd. rewrite count_app. rewrite Hp in Hd. specialize (Hcount d Hd). lia.
  - destruct (IH _ _ _ Hrec) as (nm & t & ? & ? & Hcount); [lia|].
    exists nm, t. split_and!; [done..|].
    intros d Hd. rewrite count_app. specialize (Hcount d Hd). lia.
Qed.
End warning_log.

Section missing.
Context {T : Type} (name : T → string) (deps : T → list string).

(** C4, as the code has it. Dependencies that name no item of the sequence
    never make [solve_dependencies] fail: the outcome is the same with and
    without [warn_missing], nothing is logged without it, and the only
    failure is the circular dependency error, which comes with a cycle
    among the names of the sequence. With [warn_missing], every warning is
    about an item of the sequence and a dependency of it that names no
    item, and on success every occurrence of such a dependency in the
    [deps] of a returned item is reported at least once (once at each scan
    of the item that reaches it). *)
Theorem solve_dependencies_missing things :
  (∀ warn, (solve_dependencies name deps things warn).2
           = (solve_dependencies name deps things false).2) ∧
  (solve_dependencies name deps things false).1 = [] ∧
  (∀ warn e, (solve_dependencies name deps things warn).2 = Raise e →
             e = circular ∧ ∃ n, tc (dep_edge name deps things) n n) ∧
  (∀ x, x ∈ (solve_dependencies name deps things true).1 →
        (w_dep x ∉ name <$> things) ∧
        ∃ t, t ∈ things ∧ name t = w_name x ∧ w_dep x ∈ deps t) ∧
  (∀ out x d, (solve_dependencies name deps things true).2 = Ok out →
        x ∈ out → d ∉ name <$> things →
        count d (deps x)
        ≤ count (Warning (name x) d) (solve_dependencies name deps things true).1).
Proof.
  split_and!.
  - intros warn. unfold solve_dependencies, solve_dependencies_fuel.
    pose proof (for_index_flag deps (thingmap name things) warn (S (length things))
      (seq 0 (length (name <$> things))) (name <$> things)) as Hflag.
    destruct (for_index deps (thingmap name things) warn _ _ _) as [w r],
      (for_index deps (thingmap name things) false _ _ _) as [w' r'].
    simpl in Hflag. subst r'. by destruct r.
  - unfold solve_dependencies, solve_dependencies_fuel.
    pose proof (for_index_quiet deps (thingmap name things) (S (length things))
      (seq 0 (length (name <$> things))) (name <$> things)) as Hq.
    destruct (for_index deps (thingmap name things) false _ _ _) as [w r].
    simpl in Hq. subst w. by destruct r.
  - intros warn e He.
    destruct (solve_dependencies_fuel_cases name deps (S (length things)) things warn)
      as [(w & names & out & Hs & _)|(w & Hs & n & Hn)]; [lia|..];
      unfold solve_dependencies in He; rewrite Hs in He; [done|].
    injection He as <-. split; [done|]. exists n.
    eapply tc_mono; [|done]. intros a b. apply tm_edge_dep_edge.
  - intros x. unfold solve_dependencies, solve_dependencies_fuel.
    destruct (for_index deps (thingmap name things) true _ _ _) as [w r] eqn:Hfor.
    intros Hx. assert (x ∈ w) as Hxw by (by destruct r).
    destruct (for_index_log _ _ _ _ _ _ _ _ _ Hfor Hxw) as (Hnot & t & Ht & Hd).
    split; [done|]. exists t. apply thingmap_lookup_Some in Ht as [??]. done.
  - intros out x d Hsolve Hx Hd.
    destruct (solve_dependencies_fuel_cases name deps (S (length things)) things true)
      as [(w & names & out' & Hs & Hfor & Hp & Hset & Hout)|(w & Hs & _)]; [lia|..];
      unfold solve_dependencies in *; rewrite Hs in *; [|done].
    simpl in Hsolve. injection Hsolve as ->. simpl.
    apply list_elem_of_lookup in Hx as [i Hi].
    destruct (Forall2_lookup_r _ _ _ _ _ Hout Hi) as (n & Hn & Hnx).
    destruct (for_index_count deps _ _ _ _ _ _ _ i Hfor) as (nm & t & Hnm & Ht & Hcount).
    { apply lookup_lt_Some in Hn. rewrite Hp in Hn. lia. }
    assert (nm = n) as -> by congruence. assert (t = x) as -> by congruence.
    apply thingmap_lookup_Some in Hnx as [_ ->]. apply Hcount. by rewrite Hp.
Qed.
End missing.

(** C4 as stated fails: [X] lists the missing [m] once, and two warnings
    are logged for it, one at each of the two scans of [X]. *)
Lemma solve_dependencies_missing_counterexample :
  solve_items items_missing true
  = ([Warning "X" "m"; Warning "X" "m"],
     Ok [Item "y" []; Item "X" ["m"; "y"]]) ∧
  count "m" (i_deps (Item "X" ["m"; "y"])) = 1 ∧
  count (Warning "X" "m") (solve_items items_missing true).1 = 2.
Proof. split_and!; vm_compute; reflexivity. Qed.

Lemma solve_dependencies_missing_witness :
  count "m" (i_deps (Item "X" ["m"; "y"]))
  ≤ count (Warning (i_name (Item "X" ["m"; "y"])) "m")
      (solve_items items_missing true).1.
Proof.
  apply (proj2 (proj2 (proj2 (proj2
           (solve_dependencies_missing i_name i_deps items_missing))))
         [Item "y" []; Item "X" ["m"; "y"]]).
  - vm_compute. reflexivity.
  - rewrite !elem_of_cons. auto.
  - apply (bool_decide_unpack _). vm_compute. exact I.
Defined.

(** ** Facts on the string operations *)

Lemma app_String c s t : String c s +:+ t = String c (s +:+ t).
Proof. done. Qed.

Lemma app_empty_l s : "" +:+ s = s.
Proof. done. Qed.

Lemma app_assoc_str s t u : (s +:+ t) +:+ u = s +:+ (t +:+ u).
Proof. induction s as [|c s IH]; [done|]. by rewrite !app_String, IH. Qed.

Lemma length_app_str s t :
  String.length (s +:+ t) = String.length s + String.length t.
Proof. induction s as [|c s IH]; [done|]. rewrite app_String. simpl. by rewrite IH. Qed.

Lemma startswith_spec s p : startswith s p = true ↔ ∃ r, s = p +:+ r.
Proof.
  revert s. induction p as [|c p IH]; intros s.
  - split; [intros _; exists s; reflexivity|by destruct s].
  - destruct s as [|d s]; simpl.
    + split; [done|intros [r Hr]; by rewrite app_String in Hr].
    + case_decide as Hcd.
      * subst d. rewrite IH. split; intros [r Hr]; exists r.
        -- by rewrite app_String, Hr.
        -- rewrite app_String in Hr. by injection Hr.
      * split; [done|]. intros [r Hr]. rewrite app_String in Hr. by injection Hr.
Qed.

Lemma contains_app c a b :
  contains c (a +:+ b) = contains c a || contains c b.
Proof.
  induction a as [|d a IH]; [done|]. rewrite app_String. simpl. by case_decide.
Qed.

Lemma contains_mid c a b : contains c (a +:+ String c b) = true.
Proof.
  rewrite contains_app. simpl. rewrite decide_True by done. apply orb_true_r.
Qed.

Lemma rpartition_Some sep s a b :
  rpartition sep s = Some (a, b) ↔
  s = a +:+ String sep b ∧ contains sep b = false.
Proof.
  revert a b. induction s as [|c s IH]; intros a b; simpl.
  - split; [done|]. intros [Hs _]. destruct a; by rewrite ?app_String in Hs.
  - destruct (rpartition sep s) as [[a' b']|] eqn:Hrp.
    + destruct (proj1 (IH a' b') eq_refl) as [-> Hb'].
      split.
      * intros [= <- <-]. by rewrite app_String.
      * intros [Hs Hb]. destruct a as [|c' a].
        -- rewrite app_empty_l in Hs. injection Hs as -> Hs.
           by rewrite <-Hs, contains_mid in Hb.
        -- rewrite app_String in Hs. injection Hs as -> Hs.
           assert (Some (a', b') = Some (a, b)) as Heq by (by apply IH).
           by injection Heq as -> ->.
    + assert (contains sep s = false) as Hns.
      { clear IH. induction s as [|d s IHs]; [done|]. simpl in *.
        destruct (rpartition sep s) as [[??]|]; [done|].
        case_decide; [done|]. by apply IHs. }
      case_decide as Hc.
      * subst c. split.
        -- intros [= <- <-]. done.
        -- intros [Hs Hb]. destruct a as [|c' a].
           ++ rewrite app_empty_l in Hs. by injection Hs as ->.
           ++ rewrite app_String in Hs. injection Hs as -> ->.
              by rewrite contains_mid in Hns.
      * split; [done|]. intros [Hs Hb]. destruct a as [|c' a].
        -- rewrite app_empty_l in Hs. by injection Hs.
        -- rewrite app_String in Hs. injection Hs as -> ->.
           by rewrite contains_mid in Hns.
Qed.

Lemma rpartition_None sep s : rpartition sep s = None ↔ contains sep s = false.
Proof.
  induction s as [|c s IH]; simpl; [done|].
  destruct (rpartition sep s) as [[??]|].
  - split; [done|]. case_decide; [done|]. intros Hc. by apply IH in Hc.
  - case_decide; [done|]. split; [intros _; by apply IH|done].
Qed.

Lemma dotted_cut p r a b :
  p +:+ String "." r = a +:+ String "." b → contains "." b = false →
  p = a ∨ ∃ r', a = p +:+ String "." r'.
Proof.
  revert a. induction p as [|c p IH]; intros a Heq Hb.
  - rewrite app_empty_l in Heq. destruct a as [|c a]; [by left|].
    rewrite app_String in Heq. injection Heq as <- _. right. by exists a.
  - rewrite app_String in Heq. destruct a as [|c' a].
    + rewrite app_empty_l in Heq. injection Heq as -> <-.
      by rewrite contains_mid in Hb.
    + rewrite app_String in Heq. injection Heq as <- Heq.
      destruct (IH _ Heq Hb) as [->|[r' ->]]; [by left|].
      right. exists r'. by rewrite app_String.
Qed.

Lemma dotted_prefix_step p s :
  dotted_prefix p s ↔
  p = s ∨ (contains "." s = true ∧ dotted_prefix p (rsplit1_head "." s)).
Proof.
  unfold rsplit1_head. destruct (rpartition "." s) as [[a b]|] eqn:Hrp.
  - apply rpartition_Some in Hrp as [-> Hb]. split.
    + intros [->|[r Hr]]; [by left|]. right. split.
      { apply contains_mid. }
      symmetry in Hr. destruct (dotted_cut _ _ _ _ Hr Hb) as [->|[r' ->]]; [by left|].
      right. by exists r'.
    + intros [->|[_ [->|[r ->]]]]; [by left|right; by exists b|].
      right. exists (r +:+ String "." b). by rewrite app_assoc_str.
  - apply rpartition_None in Hrp. split.
    + intros [->|[r ->]]; [by left|].
      by rewrite contains_mid in Hrp.
    + intros [->|[Hc _]]; [by left|congruence].
Qed.

Lemma rsplit1_head_length s :
  contains "." s = true → String.length (rsplit1_head "." s) < String.length s.
Proof.
  unfold rsplit1_head. destruct (rpartition "." s) as [[a b]|] eqn:Hrp.
  - apply rpartition_Some in Hrp as [-> _]. intros _.
    rewrite length_app_str. simpl. lia.
  - apply rpartition_None in Hrp. congruence.
Qed.

(** ** The dependency set of a bundle *)

Lemma expand_dep_spec fuel dep acc :
  String.length dep < fuel →
  ∃ D, expand_dep fuel dep acc = Ok D ∧
       ∀ p, p ∈ D ↔ p ∈ acc ∨ dotted_prefix p dep.
Proof.
  revert dep acc. induction fuel as [|fuel IH]; intros dep acc Hlen; [lia|].
  simpl. destruct (contains "." dep) eqn:Hc.
  - destruct (IH (rsplit1_head "." dep) ({[dep]} ∪ acc)) as (D & -> & HD).
    { pose proof (rsplit1_head_length dep Hc). lia. }
    exists D. split; [done|]. intros p. rewrite HD, (dotted_prefix_step p dep), Hc.
    rewrite elem_of_union, elem_of_singleton. naive_solver.
  - eexists. split; [done|]. intros p. rewrite dotted_prefix_step, Hc.
    rewrite elem_of_union, elem_of_singleton. naive_solver.
Qed.

Lemma expand_deps_spec ds acc :
  ∃ D, expand_deps ds acc = Ok D ∧
       ∀ p, p ∈ D ↔ p ∈ acc ∨ ∃ dep, dep ∈ ds ∧ dotted_prefix p dep.
Proof.
  revert acc. induction ds as [|dep ds IH]; intros acc; simpl.
  - exists acc. split; [done|]. intros p. split; [by left|].
    intros [?|(? & ?%elem_of_nil & _)]; done.
  - destruct (expand_dep_spec (S (String.length dep)) dep acc) as (D1 & HD1e & HD1); [lia|].
    simpl in HD1e. rewrite HD1e.
    destruct (IH D1) as (D & -> & HD). exists D. split; [done|].
    intros p. rewrite HD, HD1. setoid_rewrite elem_of_cons. naive_solver.
Qed.

Lemma clear_deps_spec mn ext deps own x :
  x ∈ clear_deps mn ext deps own ↔
  x ∈ own ∨ ∃ d, d ∈ deps ∧ represented mn d = false ∧ x = d +:+ ext.
Proof.
  unfold clear_deps.
  apply (set_fold_ind_L (λ r X, x ∈ r ↔ x ∈ own ∨ ∃ d, d ∈ X ∧ represented mn d = false ∧ x = d +:+ ext)).
  - set_solver.
  - intros d X r Hd IH. destruct (represented mn d) eqn:Hr; simpl.
    + rewrite IH. split; [set_solver|].
      intros [?|(d' & [->%elem_of_singleton|?]%elem_of_union & ? & ?)]; [by left|congruence|].
      right. by exists d'.
    + rewrite elem_of_union, elem_of_singleton, IH. split.
      * intros [->|[?|(d' & ? & ? & ?)]]; [|by left|].
        -- right. exists d. set_solver.
        -- right. exists d'. set_solver.
      * intros [?|(d' & [->%elem_of_singleton|?]%elem_of_union & ? & ?)]; [by right; left|by left|].
        right. right. by exists d'.
Qed.

Lemma represented_spec ns d :
  represented ns d = true ↔ inside_namespace ns d.
Proof.
  unfold represented, inside_namespace.
  rewrite orb_true_iff, !startswith_spec.
  split; (intros [H|[r Hr]]; [by left|right; exists r]).
  - by rewrite app_assoc_str in Hr.
  - by rewrite app_assoc_str.
Qed.

Lemma add_module_Ok b m b' :
  add_module b m = Ok b' →
  startswith (i_name m) (b_module_name b) = true ∧
  b_asset b' = b_asset b ∧ b_module_name b' = b_module_name b ∧
  b_modules b' = b_modules b ++ [m] ∧ b_need_sort b' = true ∧
  ∀ x, x ∈ b_deps b' ↔
       x ∈ b_deps b ∨
       ∃ dep p, dep ∈ i_deps m ∧ dotted_prefix p dep ∧
                ¬ inside_namespace (b_module_name b) p ∧
                x = p +:+ bundle_ext b.
Proof.
  unfold add_module.
  destruct (startswith (i_name m) (b_module_name b)) eqn:Hstart; [|done]. simpl.
  destruct (expand_deps_spec (i_deps m) ∅) as (D & -> & HD).
  intros [= <-]. simpl. split_and!; [done..|].
  intros x. rewrite clear_deps_spec. fold (bundle_ext b).
  split; (intros [Hx|Hx]; [by left|right]).
  - destruct Hx as (p & Hp & Hrep & ->). apply HD in Hp as [?%elem_of_empty|(dep & ? & ?)]; [done|].
    exists dep, p. split_and!; [done..| |done].
    rewrite <-represented_spec. by rewrite Hrep.
  - destruct Hx as (dep & p & Hdep & Hp & Hrep & ->). exists p. split_and!; [|..|done].
    + apply HD. right. eauto.
    + rewrite <-represented_spec in Hrep. by destruct (represented _ p).
Qed.

Lemma add_modules_Ok b ms b' :
  add_modules b ms = Ok b' →
  b_asset b' = b_asset b ∧ b_module_name b' = b_module_name b ∧
  b_modules b' = b_modules b ++ ms ∧
  ∀ x, x ∈ b_deps b' ↔
       x ∈ b_deps b ∨
       ∃ m dep p, m ∈ ms ∧ dep ∈ i_deps m ∧ dotted_prefix p dep ∧
                  ¬ inside_namespace (b_module_name b) p ∧
                  x = p +:+ bundle_ext b.
Proof.
  revert b. induction ms as [|m ms IH]; intros b; simpl.
  - intros [= <-]. rewrite app_nil_r. split_and!; [done..|].
    intros x. split; [by left|]. intros [?|(? & ? & ? & ?%elem_of_nil & _)]; done.
  - destruct (add_module b m) as [b1| |] eqn:Hadd; [|done..].
    apply add_module_Ok in Hadd as (_ & Ha & Hmn & Hms & _ & Hdeps).
    intros (Ha' & Hmn' & Hms' & Hdeps')%IH.
    assert (bundle_ext b1 = bundle_ext b) as Hext.
    { unfold bundle_ext, b_name. by rewrite Ha. }
    split_and!; [congruence..| |].
    + rewrite Hms', Hms, <-app_assoc. done.
    + intros x. rewrite Hdeps', Hdeps, Hmn, Hext. setoid_rewrite elem_of_cons.
      naive_solver.
Qed.

Lemma Bundle_init_Ok c nm c' b :
  Bundle_init c nm = (c', Ok b) →
  b_deps b = ∅ ∧ b_modules b = [] ∧ b_need_sort b = false.
Proof.
  unfold Bundle_init. destruct (Asset_init c nm (PStr "")) as [c1 [a| |]]; [|done..].
  destruct nm; [done| |done..]. by intros [= <- <-].
Qed.

(** C6. After any run of [add_module] calls on a new bundle, [deps] holds
    exactly the names [p + ext] where [p] is a dotted prefix of a dependency
    of an added module, [p] is not inside the namespace of the bundle, and
    [ext] is the extension of the bundle. So adding [pkg.a] with the
    dependencies [pkg.sub.b] and [other.x] to the bundle [pkg.js] gives the
    set of [other.x.js] and [other.js], without [pkg.sub.b.js],
    [pkg.sub.js] and [pkg.js]. *)
Theorem bundle_deps_spec :
  (∀ c nm c' b0 ms b,
     Bundle_init c nm = (c', Ok b0) → add_modules b0 ms = Ok b →
     b_modules b = ms ∧
     ∀ x, x ∈ b_deps b ↔
          ∃ m dep p, m ∈ ms ∧ dep ∈ i_deps m ∧ dotted_prefix p dep ∧
                     ¬ inside_namespace (b_module_name b0) p ∧
                     x = p +:+ bundle_ext b0) ∧
  (∃ b0 b, (Bundle_init 0 (PStr "pkg.js")).2 = Ok b0 ∧
           b_module_name b0 = "pkg" ∧ bundle_ext b0 = ".js" ∧
           add_module b0 (Item "pkg.a" ["pkg.sub.b"; "other.x"]) = Ok b ∧
           b_deps b = {[ "other.x.js"; "other.js" ]} ∧
           ("pkg.sub.b.js" ∉ b_deps b) ∧ ("pkg.sub.js" ∉ b_deps b) ∧
           ("pkg.js" ∉ b_deps b) ∧
           "other.x.js" ∈ b_deps b ∧ "other.js" ∈ b_deps b).
Proof.
  split.
  - intros c nm c' b0 ms b (Hd & Hm & _)%Bundle_init_Ok (_ & _ & Hms & Hdeps)%add_modules_Ok.
    split; [by rewrite Hms, Hm|].
    intros x. rewrite Hdeps, Hd. split; [intros [?%elem_of_empty|?]; done|by right].
  - eexists _, _. split; [vm_compute; reflexivity|].
    split; [reflexivity|]. split; [vm_compute; reflexivity|].
    split; [vm_compute; reflexivity|].
    split; [vm_compute; reflexivity|].
    split_and!; by vm_compute.
Qed.

Lemma bundle_deps_spec_witness :
  ∃ b0 b, Bundle_init 0 (PStr "pkg.js") = (1, Ok b0) ∧
    add_modules b0 [Item "pkg.a" ["pkg.sub.b"; "other.x"]] = Ok b ∧
    b_modules b = [Item "pkg.a" ["pkg.sub.b"; "other.x"]] ∧
    ∀ x, x ∈ b_deps b ↔
         ∃ m dep p, m ∈ [Item "pkg.a" ["pkg.sub.b"; "other.x"]] ∧
                    dep ∈ i_deps m ∧ dotted_prefix p dep ∧
                    ¬ inside_namespace (b_module_name b0) p ∧
                    x = p +:+ bundle_ext b0.
Proof.
  eexists _, _. split; [vm_compute; reflexivity|].
  split; [vm_compute; reflexivity|].
  eapply (proj1 bundle_deps_spec 0 (PStr "pkg.js")); vm_compute; reflexivity.
Defined.

(** ** Construction and content of assets *)

(** C8. [Asset("https://example.com/x.js")] is a remote asset named
    [x.js]; an asset whose name starts with [http://] or [https://] and
    that is given a source other than [None] raises a [TypeError]. *)
Theorem Asset_init_url c :
  (∃ a, (Asset_init c (PStr "https://example.com/x.js") PNone).2 = Ok a ∧
        a_remote a = true ∧ a_name a = "x.js") ∧
  (∀ nm src, startswith_any nm url_starts = true → is_None src = false →
     (Asset_init c (PStr nm) src).2
     = Raise (Exn TypeError "Remote assets cannot have a source: %s" [nm])).
Proof.
  split.
  - eexists. split; [reflexivity|]. by vm_compute.
  - intros nm src Hurl Hsrc. unfold Asset_init. by rewrite Hurl, Hsrc.
Qed.

Lemma Asset_init_url_witness :
  (Asset_init 0 (PStr "http://host/style.css") (PStr "body{}")).2
  = Raise (Exn TypeError "Remote assets cannot have a source: %s"
             ["http://host/style.css"]).
Proof.
  apply (proj2 (Asset_init_url 0) "http://host/style.css" (PStr "body{}"));
    vm_compute; reflexivity.
Defined.

Section materialize.
Context (urlopen : string → outcome string).

Lemma to_string_cached a s :
  a_source_str a = PStr s → to_string urlopen a = (a, Ok (PStr s)).
Proof. unfold to_string. by intros ->. Qed.

Lemma to_string_times_cached n a s :
  a_source_str a = PStr s →
  to_string_times urlopen n a = (a, replicate n (Ok (PStr s))).
Proof.
  intros Hs. induction n as [|n IH]; [done|].
  simpl. by rewrite (to_string_cached a s), IH.
Qed.

(** C9, as the code has it. An asset built from a source function is built
    without a call of the function and without content. When the first call
    of the function returns text, any run of one or more [to_string] calls
    returns that text at every call and calls the function once; the object
    then holds the text and a further [to_string] leaves it as it is. When
    the first call returns something else than text, the first [to_string]
    raises a [ValueError]. *)
Theorem to_string_function c nm cls f c' a :
  Asset_init c (PStr nm) (PFunc cls f) = (c', Ok a) →
  (a_source_str a = PNone ∧ a_calls a = 0) ∧
  (∀ s n, f 0 = PStr s →
     ∃ a', to_string_times urlopen (S n) a = (a', replicate (S n) (Ok (PStr s))) ∧
           a_source_str a' = PStr s ∧ a_calls a' = 1 ∧
           to_string urlopen a' = (a', Ok (PStr s))) ∧
  ((∀ s, f 0 ≠ PStr s) →
     (to_string urlopen a).2
     = Raise (Exn ValueError
                "Source function of asset %r did not return a str, but a %s."
                [a_name a; cls])).
Proof.
  unfold Asset_init.
  destruct (startswith_any nm url_starts && negb (is_None (PFunc cls f))) eqn:Hurl.
  { done. }
  assert (startswith_any nm url_starts = false) as Hnurl.
  { simpl in Hurl. by rewrite andb_true_r in Hurl. }
  rewrite Hnurl. cbn zeta. 
  destruct (negb (endswith_any (lower nm) [".js"; ".css"])); [done|].
  intros [= <- <-]. split; [done|]. split.
  - intros s n Hf. simpl. unfold to_string at 1. simpl. rewrite Hf.
    rewrite (to_string_times_cached n _ s) by done.
    eexists. split; [done|]. split_and!; [done..|]. by apply to_string_cached.
  - intros Hf. unfold to_string. simpl. destruct (f 0) eqn:Hf0; [done| |done..].
    by destruct (Hf s).
Qed.
End materialize.

Lemma to_string_function_witness :
  ∃ a, Asset_init 0 (PStr "style.css") returns_css = (1, Ok a) ∧
    ∃ a', to_string_times no_network 3 a
          = (a', replicate 3 (Ok (PStr "body{}"))) ∧
          a_source_str a' = PStr "body{}" ∧ a_calls a' = 1 ∧
          to_string no_network a' = (a', Ok (PStr "body{}")).
Proof.
  eexists. split; [vm_compute; reflexivity|].
  eapply (proj1 (proj2 (to_string_function no_network 0 "style.css" "function"
                          (λ _, PStr "body{}") 1 _ _)) "body{}" 2).
  reflexivity.
  Unshelve. vm_compute. reflexivity.
Defined.

(** C9 as stated fails: a source function that returns [None] is called
    again at every [to_string], and the object never holds content. *)
Lemma to_string_function_counterexample :
  ∃ a a' e,
    Asset_init 0 (PStr "x.js") returns_None = (1, Ok a) ∧
    to_string_times no_network 2 a = (a', [Raise e; Raise e]) ∧
    a_calls a' = 2 ∧ a_source_str a' = PNone.
Proof.
  eexists _, _, _. split; [vm_compute; reflexivity|].
  split; [vm_compute; reflexivity|]. split; reflexivity.
Qed.

(** ** The sorted modules of a bundle *)

Lemma insert_by_name_Permutation m ms : insert_by_name m ms ≡ₚ m :: ms.
Proof.
  induction ms as [|m' ms IH]; simpl; [done|].
  destruct (String.leb (i_name m) (i_name m')); [done|].
  by rewrite IH, Permutation_swap.
Qed.

Lemma sorted_by_name_Permutation ms : sorted_by_name ms ≡ₚ ms.
Proof.
  induction ms as [|m ms IH]; simpl; [done|].
  by rewrite insert_by_name_Permutation, IH.
Qed.

Lemma insert_by_name_Sorted m ms :
  Sorted String.le (i_name <$> ms) →
  Sorted String.le (i_name <$> insert_by_name m ms).
Proof.
  induction ms as [|m' ms IH]; simpl.
  - intros _. by repeat constructor.
  - intros Hs. destruct (String.leb (i_name m) (i_name m')) eqn:Hle.
    + rewrite !fmap_cons. constructor; [done|]. constructor.
      unfold String.le. by rewrite Hle.
    + rewrite fmap_cons. apply Sorted_inv in Hs as [Hs Hhd].
      constructor; [by apply IH|].
      assert (String.le (i_name m') (i_name m)) as Hle'.
      { destruct (total String.le (i_name m) (i_name m')) as [H|H]; [|done].
        unfold String.le in H. by rewrite Hle in H. }
      destruct ms as [|m'' ms]; simpl; [by constructor|].
      destruct (String.leb (i_name m) (i_name m'')); constructor; [done|].
      by apply HdRel_inv in Hhd.
Qed.

Lemma sorted_by_name_Sorted ms :
  Sorted String.le (i_name <$> sorted_by_name ms).
Proof.
  induction ms as [|m ms IH]; simpl; [constructor|].
  by apply insert_by_name_Sorted.
Qed.

Lemma Permutation_fmap_eq {A B} (f : A → B) (l1 l2 : list A) :
  l1 ≡ₚ l2 → f <$> l1 = f <$> l2 → NoDup (f <$> l1) → l1 = l2.
Proof.
  revert l2. induction l1 as [|x l1 IH]; intros l2 Hp Heq Hnd.
  - by apply Permutation_nil_l in Hp.
  - destruct l2 as [|y l2]; [done|].
    rewrite !fmap_cons in Heq. injection Heq as Hxy Heq.
    apply NoDup_cons in Hnd as [Hx Hnd].
    assert (y = x) as ->.
    { assert (y ∈ x :: l1) as [->|Hy]%elem_of_cons; [|done|].
      - rewrite Hp. apply elem_of_cons. by left.
      - exfalso. apply Hx. rewrite Hxy. by apply list_elem_of_fmap_2. }
    f_equal. apply IH; [|done..]. by apply (inj (x ::.)).
Qed.

(** The seed order does not depend on the order of insertion. *)
Lemma sorted_by_name_unique ms1 ms2 :
  ms1 ≡ₚ ms2 → NoDup (i_name <$> ms1) →
  sorted_by_name ms1 = sorted_by_name ms2.
Proof.
  intros Hp Hnd.
  assert (sorted_by_name ms1 ≡ₚ sorted_by_name ms2) as Hps.
  { by rewrite !sorted_by_name_Permutation. }
  apply (Permutation_fmap_eq i_name); [done| |].
  - apply (Sorted_unique String.le); [apply sorted_by_name_Sorted..|].
    by rewrite Hps.
  - by rewrite sorted_by_name_Permutation.
Qed.

(** C7, where the code departs from it. Reading [modules] of the bundle
    [pkg.js] after one [add_module] returns the resolved list and leaves
    [_need_sort] set: the flag is not cleared by the read. *)
Theorem modules_need_sort_stays :
  ∃ b0 b b',
    (Bundle_init 0 (PStr "pkg.js")).2 = Ok b0 ∧
    add_module b0 (Item "pkg.a" []) = Ok b ∧ b_need_sort b = true ∧
    modules b = (b', Ok [Item "pkg.a" []]) ∧ b_need_sort b' = true.
Proof.
  eexists _, _, _. split; [vm_compute; reflexivity|].
  split; [vm_compute; reflexivity|]. split; [reflexivity|].
  split; [vm_compute; reflexivity|]. reflexivity.
Qed.

(** No read of [modules] changes [_need_sort]. *)
Lemma modules_need_sort b : b_need_sort (modules b).1 = b_need_sort b.
Proof.
  unfold modules. destruct (b_need_sort b) eqn:Hs; [|done].
  by destruct (solve_dependencies i_name i_deps _ false).2.
Qed.

(** X22. With pairwise distinct names, what [modules] returns does not depend on
    the order in which the modules were added. *)
Lemma modules_order_independent b1 b2 :
  b_need_sort b1 = true → b_need_sort b2 = true →
  b_modules b1 ≡ₚ b_modules b2 → NoDup (i_name <$> b_modules b1) →
  (modules b1).2 = (modules b2).2.
Proof.
  intros H1 H2 Hp Hnd. unfold modules. rewrite H1, H2.
  rewrite (sorted_by_name_unique _ _ Hp Hnd).
  by destruct (solve_dependencies i_name i_deps _ false).2.
Qed.

(** X23. With pairwise distinct names, a second read, which sorts and resolves
    again because [_need_sort] is still set, returns the same list. *)
Lemma modules_read_again b b' ms :
  b_need_sort b = true → NoDup (i_name <$> b_modules b) →
  modules b = (b', Ok ms) → modules b' = (b', Ok ms).
Proof.
  intros Hs Hnd. unfold modules at 1. rewrite Hs.
  destruct (solve_dependencies i_name i_deps (sorted_by_name (b_modules b)) false).2
    as [ms'| |] eqn:Hsolve; [|done..].
  intros [= <- <-]. unfold modules. simpl.
  assert (ms' ≡ₚ sorted_by_name (b_modules b)) as Hp.
  { eapply solve_dependencies_Permutation; [|done].
    by rewrite sorted_by_name_Permutation. }
  rewrite (sorted_by_name_unique ms' (b_modules b)).
  - by rewrite Hsolve.
  - by rewrite Hp, sorted_by_name_Permutation.
  - by rewrite Hp, sorted_by_name_Permutation.
Qed.

(** ** Module names *)

Lemma rsplit1_head_app stem ext :
  contains "." ext = false → rsplit1_head "." (stem +:+ String "." ext) = stem.
Proof.
  intros Hext. unfold rsplit1_head.
  assert (rpartition "." (stem +:+ String "." ext) = Some (stem, ext)) as ->;
    [|done].
  by apply rpartition_Some.
Qed.

(** X2. Only what follows the last dot of [__file__] is cut off before the
    test: a file [stem.ext] is a package exactly when [stem] ends with
    [__init__]. A module without [__file__] is no package, and a
    [__file__] that is [None] makes the test raise an [AttributeError]. *)
Theorem module_is_package_file m :
  (∀ stem ext, mod_file m = Some (PStr (stem +:+ String "." ext)) →
     contains "." ext = false →
     module_is_package m = Plain (Ok (endswith stem "__init__"))) ∧
  (mod_file m = None → module_is_package m = Plain (Ok false)) ∧
  (mod_file m = Some PNone →
     module_is_package m = RaiseMore (AttributeError "rsplit")).
Proof.
  unfold module_is_package. split_and!.
  - intros stem ext -> Hext. by rewrite rsplit1_head_app.
  - by intros ->.
  - by intros ->.
Qed.

Lemma get_mod_name_module sys m :
  get_mod_name sys (ObModule m) =
  match module_is_package m with
  | Plain (Ok true) => Plain (Ok (mod_name m +:+ ".__init__"))
  | Plain (Ok false) => Plain (Ok (mod_name m))
  | Plain (Raise e) => Plain (Raise e)
  | Plain OutOfFuel => Plain OutOfFuel
  | RaiseMore e => RaiseMore e
  end.
Proof. done. Qed.

(** X1. The name [get_mod_name] gives for a module is the name of the module,
    followed by [.__init__] exactly when the module is a package. The name
    of the module is then what stands before the last dot, and a dotted
    prefix, of the name given. An object that is no module is named as the
    module that [sys.modules] holds for its [__module__], and a missing
    entry is a [KeyError]. *)
Theorem get_mod_name_spec sys m name :
  (get_mod_name sys (ObModule m) = Plain (Ok name) →
   (module_is_package m = Plain (Ok false) ∧ name = mod_name m) ∨
   (module_is_package m = Plain (Ok true) ∧
    name = mod_name m +:+ ".__init__" ∧
    rsplit1_head "." name = mod_name m ∧ dotted_prefix (mod_name m) name)) ∧
  (∀ k, sys !! k = Some m →
     get_mod_name sys (ObOther (Some k)) = get_mod_name sys (ObModule m)) ∧
  (∀ k, sys !! k = None →
     get_mod_name sys (ObOther (Some k)) = Plain (Raise (Exn KeyError "%r" [k]))).
Proof.
  split_and!.
  - rewrite get_mod_name_module.
    destruct (module_is_package m) as [[[|]| |]|]; try done.
    + intros [= <-]. right. split_and!; [done..| |].
      * by apply (rsplit1_head_app (mod_name m) "__init__").
      * right. by exists "__init__".
    + intros [= <-]. by left.
  - intros k Hk. unfold get_mod_name. by rewrite Hk.
  - intros k Hk. unfold get_mod_name. by rewrite Hk.
Qed.

(** ** More on the resolver *)

Section resolver_more.
Context {T : Type} (name : T → string) (deps : T → list string).

Lemma thingmap_lookup_last things n x :
  thingmap name things !! n = Some x →
  name x = n ∧ ∃ l1 l2, things = l1 ++ x :: l2 ∧ n ∉ name <$> l2.
Proof.
  induction things as [|t things IH] using rev_ind; [done|].
  rewrite thingmap_snoc, lookup_insert. case_decide as Hn.
  - intros [= ->]. split; [done|]. exists things, []. split; [done|].
    rewrite fmap_nil. apply not_elem_of_nil.
  - intros (Hx & l1 & l2 & -> & Hl2)%IH. split; [done|].
    exists l1, (l2 ++ [t]). split; [by rewrite <-app_assoc|].
    rewrite fmap_app, not_elem_of_app. split; [done|].
    rewrite fmap_cons, fmap_nil, list_elem_of_singleton. congruence.
Qed.

(** X3. Whatever the input, with repeated names too: the names of a returned
    list are the names of the input, each as often as there, and each
    returned item is the last item of its name in the input. *)
Theorem solve_dependencies_names things warn out :
  (solve_dependencies name deps things warn).2 = Ok out →
  name <$> out ≡ₚ name <$> things ∧
  ∀ x, x ∈ out →
    ∃ l1 l2, things = l1 ++ x :: l2 ∧ (name x ∉ name <$> l2).
Proof.
  intros Hsolve.
  destruct (solve_dependencies_fuel_cases name deps (S (length things)) things warn)
    as [(w & names & out' & Hs & _ & Hp & _ & Hout)|(w & Hs & _)]; [lia|..];
    unfold solve_dependencies in Hsolve; rewrite Hs in Hsolve; [|done].
  simpl in Hsolve. injection Hsolve as ->.
  split; [by rewrite (Forall2_lookup_name _ _ _ _ Hout)|].
  intros x [i Hi]%list_elem_of_lookup.
  destruct (Forall2_lookup_r _ _ _ _ _ Hout Hi) as (n & _ & Hn).
  apply thingmap_lookup_last in Hn as (<- & l1 & l2 & ? & ?). eauto.
Qed.

(** X4. Whenever a list is returned, no dependency stands after its item: the
    first place of a dependency of the item at position [p] is [p] or
    before. *)
Theorem solve_dependencies_ordered things warn out p x d q :
  (solve_dependencies name deps things warn).2 = Ok out →
  out !! p = Some x → d ∈ deps x → index d (name <$> out) = Some q →
  q ≤ p.
Proof.
  intros Hsolve Hx Hd Hq.
  destruct (solve_dependencies_fuel_cases name deps (S (length things)) things warn)
    as [(w & names & out' & Hs & _ & Hp & Hset & Hout)|(w & Hs & _)]; [lia|..];
    unfold solve_dependencies in Hsolve; rewrite Hs in Hsolve; [|done].
  simpl in Hsolve. injection Hsolve as ->.
  rewrite (Forall2_lookup_name _ _ _ _ Hout) in Hq.
  destruct (Forall2_lookup_r _ _ _ _ _ Hout Hx) as (n & Hn & Htx).
  destruct (Hset p) as (nm & t & Hnm & Ht & Hall); [by eapply lookup_lt_Some|].
  assert (nm = n) as -> by congruence. assert (t = x) as -> by congruence.
  by eapply Hall.
Qed.

(** A run that follows an edge to another name at each pass ends in the
    error only on a cycle of such edges. *)
Lemma settle_circular_other tm N warn fuel idx seen names w :
  names ≡ₚ N →
  (∀ s nm, s ∈ seen → names !! idx = Some nm →
     tc (tm_edge_other deps tm N) s nm) →
  settle deps tm warn fuel idx seen names = (w, Raise circular) →
  ∃ n, tc (tm_edge_other deps tm N) n n.
Proof.
  revert seen names w.
  induction fuel as [|fuel IH]; intros seen names w Hp Hseen; simpl; [done|].
  destruct (names !! idx) as [nm|] eqn:Hnm; [|done].
  case_decide as Hin; [intros _; exists nm; by apply Hseen|].
  destruct (tm !! nm) as [t|] eqn:Ht; [|done].
  destruct (scan_deps warn nm idx names (deps t)) as [w1 r1] eqn:Hscan.
  destruct (scan_deps_inv _ _ _ _ _ _ _ Hscan)
    as [[-> Hall]|(d & j & names1 & -> & Hd & Hj & Hlt & Hmv)]; [done|].
  destruct (settle deps tm warn fuel idx ({[nm]} ∪ seen) names1)
    as [w2 r2] eqn:Hrec.
  intros [= <- ->]. eapply IH; [| |exact Hrec].
  - rewrite <-Hp. by eapply move_Permutation.
  - intros s nm' Hs Hnm'.
    assert (nm' = d) as ->.
    { erewrite move_lookup in Hnm'; [|by apply Nat.lt_le_incl|done].
      apply index_Some in Hj as [Hj _]. congruence. }
    assert (tm_edge_other deps tm N nm d) as Hedge.
    { split.
      - exists t. split_and!; [done..|]. rewrite <-Hp.
        apply index_is_Some. eauto.
      - intros ->. pose proof (index_le_lookup _ _ _ _ Hj Hnm). lia. }
    apply elem_of_union in Hs as [->%elem_of_singleton|Hs].
    + by apply tc_once.
    + eapply tc_r; [|done]. by apply Hseen.
Qed.

Lemma for_index_circular_other tm N warn fuel idxs names w :
  names ≡ₚ N →
  for_index deps tm warn fuel idxs names = (w, Raise circular) →
  ∃ n, tc (tm_edge_other deps tm N) n n.
Proof.
  revert names w.
  induction idxs as [|idx idxs IH]; intros names w Hp; simpl; [done|].
  destruct (settle deps tm warn fuel idx ∅ names) as [w1 r1] eqn:Hst.
  destruct r1 as [names1|e|].
  - destruct (for_index deps tm warn fuel idxs names1) as [w2 r2] eqn:Hrec.
    intros [= <- ->]. eapply IH; [|done].
    apply settle_Ok in Hst as (Hp1 & _). by rewrite Hp1.
  - intros [= <- ->]. eapply settle_circular_other; [done| |done].
    intros s nm Hs. by apply elem_of_empty in Hs.
  - done.
Qed.

(** A cycle of edges to other names goes through two different names. *)
Lemma tc_other_has_cycle things n :
  tc (dep_edge_other name deps things) n n → has_cycle name deps things.
Proof.
  intros Hn.
  assert (∀ a b, tc (dep_edge_other name deps things) a b →
                 tc (dep_edge name deps things) a b) as Hsub.
  { intros a b. apply tc_mono. by intros ?? [??]. }
  inversion Hn as [? ? [_ Hne]|? m ? [Hnm Hne] Hmn]; subst; [done|].
  exists n, m. split_and!; [done|by apply tc_once|by apply Hsub].
Qed.

(** A returned list leaves no room for a cycle through two names. *)
Lemma solve_dependencies_Ok_no_cycle things warn out :
  NoDup (name <$> things) →
  (solve_dependencies name deps things warn).2 = Ok out →
  ¬ has_cycle name deps things.
Proof.
  intros Hnd Hsolve (a & b & Hab & Hpab & Hpba).
  destruct (solve_dependencies_fuel_cases name deps (S (length things)) things warn)
    as [(w & names & out' & Hs & _ & Hp & Hset & Hout)|(w & Hs & _)]; [lia|..];
    unfold solve_dependencies in Hsolve; rewrite Hs in Hsolve; [|done].
  assert (∀ x y, tc (dep_edge name deps things) x y →
    tc (tm_edge deps (thingmap name things) (name <$> things)) x y) as Hsub.
  { intros x y. apply tc_mono. intros ??. by apply dep_edge_tm_edge. }
  assert (∀ x y, tc (dep_edge name deps things) x y → x ∈ name <$> things)
    as Hdom.
  { intros x y Hxy.
    destruct Hxy as [x y (t & Ht & <- & _)|x y z (t & Ht & <- & _) _];
      by apply list_elem_of_fmap_2. }
  destruct (settled_path deps (thingmap name things) (name <$> things) names a b)
    as (i & j & Hi & Hj & Hle & _); [done|done|by eapply Hdom|by apply Hsub|].
  destruct (settled_path deps (thingmap name things) (name <$> things) names b a)
    as (j' & i' & Hj' & Hi' & Hle' & Heq);
    [done|done|by eapply Hdom|by apply Hsub|].
  assert (i' = i) as -> by congruence. assert (j' = j) as -> by congruence.
  apply Hab. symmetry. apply Heq. lia.
Qed.

Lemma solve_dependencies_circular_cycle things warn :
  (solve_dependencies name deps things warn).2 = Raise circular →
  has_cycle name deps things.
Proof.
  unfold solve_dependencies, solve_dependencies_fuel.
  destruct (for_index deps (thingmap name things) warn _ _ _)
    as [w r] eqn:Hfor.
  destruct r as [names|e|]; [|intros [= ->]|done].
  - simpl. intros Hl.
    destruct (lookup_all_is_Ok (thingmap name things) names) as [out Hout];
      [|congruence].
    apply for_index_take in Hfor as [Hp _].
    intros n Hn. apply thingmap_is_Some. by rewrite <-Hp.
  - destruct (for_index_circular_other _ (name <$> things) _ _ _ _ _
                (reflexivity _) Hfor) as [n Hn].
    apply (tc_other_has_cycle things n). eapply tc_mono; [|done].
    intros a b [Hab Hne]. split; [by apply tm_edge_dep_edge|done].
Qed.

(** X5. With pairwise distinct names, a list is returned exactly when no
    dependency cycle goes through two different names, and the error is
    raised exactly when one does. *)
Theorem solve_dependencies_fails_iff things warn :
  NoDup (name <$> things) →
  (is_Ok (solve_dependencies name deps things warn).2
   ↔ ¬ has_cycle name deps things) ∧
  ((solve_dependencies name deps things warn).2 = Raise circular
   ↔ has_cycle name deps things).
Proof.
  intros Hnd.
  assert (resolved (solve_dependencies name deps things warn).2) as Hres.
  { destruct (solve_dependencies_fuel_cases name deps (S (length things))
                things warn)
      as [(w & names & out & Hs & _)|(w & Hs & _)]; [lia|..];
      unfold solve_dependencies; rewrite Hs; [left; by eexists|by right]. }
  split; split.
  - intros [out Hout]. by eapply solve_dependencies_Ok_no_cycle.
  - intros Hno. destruct Hres as [?|Herr]; [done|].
    destruct Hno. by eapply solve_dependencies_circular_cycle.
  - apply solve_dependencies_circular_cycle.
  - intros Hcyc. destruct Hres as [[out Hout]|?]; [|done].
    by destruct (solve_dependencies_Ok_no_cycle things warn out).
Qed.

(** X6. With pairwise distinct names, a sequence in which no dependency stands
    after its item is returned as it is. *)
Theorem solve_dependencies_in_order things warn :
  NoDup (name <$> things) →
  (∀ i x d j, things !! i = Some x → d ∈ deps x →
     index d (name <$> things) = Some j → j ≤ i) →
  (solve_dependencies name deps things warn).2 = Ok things.
Proof.
  intros Hnd Hord. unfold solve_dependencies, solve_dependencies_fuel.
  destruct (for_index_settled deps (thingmap name things) warn (length things)
              (seq 0 (length (name <$> things))) (name <$> things))
    as [w ->].
  { intros i Hi%elem_of_seq. rewrite length_fmap in Hi.
    destruct (lookup_lt_is_Some_2 things i) as [x Hx]; [lia|].
    exists (name x), x. split_and!.
    - by rewrite list_lookup_fmap, Hx.
    - apply thingmap_NoDup; [done|]. by eapply list_elem_of_lookup_2.
    - intros d j Hd Hj. by eapply Hord. }
  simpl. apply lookup_all_Ok.
  apply Forall2_fmap_l, Forall_Forall2_diag, Forall_forall.
  intros x Hx. by apply thingmap_NoDup.
Qed.
End resolver_more.

(** ** More on the string operations *)

Lemma app_empty_r s : s +:+ "" = s.
Proof. induction s as [|c s IH]; [done|]. by rewrite app_String, IH. Qed.

Lemma rev_app_spec s t : String.rev_app s t = String.rev s +:+ t.
Proof.
  revert t. induction s as [|c s IH]; intros t; [done|].
  unfold String.rev. simpl. rewrite (IH (String c t)), (IH (String c "")).
  by rewrite app_assoc_str.
Qed.

Lemma rev_String c s : String.rev (String c s) = String.rev s +:+ String c "".
Proof. unfold String.rev at 1. simpl. by rewrite rev_app_spec. Qed.

Lemma rev_app_distr s t : String.rev (s +:+ t) = String.rev t +:+ String.rev s.
Proof.
  induction s as [|c s IH].
  - by rewrite app_empty_l, app_empty_r.
  - by rewrite app_String, !rev_String, IH, app_assoc_str.
Qed.

Lemma rev_involutive s : String.rev (String.rev s) = s.
Proof.
  induction s as [|c s IH]; [done|].
  by rewrite rev_String, rev_app_distr, IH.
Qed.

Lemma endswith_spec s suf : endswith s suf = true ↔ ∃ r, s = r +:+ suf.
Proof.
  unfold endswith. rewrite startswith_spec. split.
  - intros [r Hr]. exists (String.rev r).
    by rewrite <-(rev_involutive s), Hr, rev_app_distr, rev_involutive.
  - intros [r ->]. exists (String.rev r). by rewrite rev_app_distr.
Qed.

Lemma app_inj_length s1 s2 t1 t2 :
  s1 +:+ t1 = s2 +:+ t2 → String.length t1 = String.length t2 →
  s1 = s2 ∧ t1 = t2.
Proof.
  revert s2. induction s1 as [|c s1 IH]; intros s2 Heq Hlen.
  - destruct s2 as [|d s2]; [done|]. exfalso.
    rewrite app_empty_l in Heq. rewrite Heq, app_String in Hlen.
    simpl in Hlen. rewrite length_app_str in Hlen. lia.
  - destruct s2 as [|d s2].
    + exfalso. rewrite app_empty_l in Heq. rewrite <-Heq, app_String in Hlen.
      simpl in Hlen. rewrite length_app_str in Hlen. lia.
    + rewrite !app_String in Heq. injection Heq as -> Heq.
      destruct (IH _ Heq Hlen) as [-> ->]. done.
Qed.

Lemma length_lower s : String.length (lower s) = String.length s.
Proof. induction s as [|c s IH]; simpl; [done|]. by rewrite IH. Qed.

Lemma split_last_spec sep s :
  contains sep (split_last sep s) = false ∧ ∃ pre, s = pre +:+ split_last sep s.
Proof.
  unfold split_last. destruct (rpartition sep s) as [[a b]|] eqn:Hrp.
  - apply rpartition_Some in Hrp as [-> Hb]. split; [done|].
    exists (a +:+ String sep ""). by rewrite app_assoc_str.
  - apply rpartition_None in Hrp. split; [done|]. by exists "".
Qed.

Lemma rsplit1_head_prefix sep s : ∃ r, s = rsplit1_head sep s +:+ r.
Proof.
  unfold rsplit1_head. destruct (rpartition sep s) as [[a b]|] eqn:Hrp.
  - apply rpartition_Some in Hrp as [-> _]. eauto.
  - exists "". by rewrite app_empty_r.
Qed.

Lemma split_head_spec sep s :
  contains sep (split_head sep s) = false ∧ ∃ r, s = split_head sep s +:+ r.
Proof.
  induction s as [|c s [IH1 [r IH2]]]; simpl.
  - split; [done|]. by exists "".
  - destruct (decide (c = sep)) as [Hc|Hc].
    + split; [done|]. by exists (String c s).
    + simpl. destruct (decide (c = sep)); [done|]. split; [done|].
      exists r. by rewrite app_String, <-IH2.
Qed.

Lemma contains_replace a b s : a ≠ b → contains a (replace a b s) = false.
Proof.
  intros Hab. induction s as [|c s IH]; simpl; [done|].
  destruct (decide (c = a)) as [->|Hc].
  - by destruct (decide (b = a)) as [->|].
  - by destruct (decide (c = a)).
Qed.

Lemma contains_suffix c pre s :
  contains c (pre +:+ s) = false → contains c s = false.
Proof. rewrite contains_app. by intros [_ ?]%orb_false_iff. Qed.



(* From here on the two tests on lists of prefixes and suffixes stay folded. *)
#[local] Arguments startswith_any : simpl never.
#[local] Arguments endswith_any : simpl never.

(** ** More on assets *)

(** The four ways [Asset.__init__] succeeds. *)
Lemma Asset_init_inv c nm src c' a :
  Asset_init c nm src = (c', Ok a) →
  c' = S c ∧ ∃ nm0, nm = PStr nm0 ∧
  endswith_any (lower (a_name a)) [".js"; ".css"] = true ∧
  ((startswith_any nm0 url_starts = true ∧ is_None src = true ∧
    a = Asset (S c) (split_last "/" (replace backslash "/" nm0)) true PNone
              (PStr nm0) 0) ∨
   (startswith_any nm0 url_starts = false ∧
    ((∃ s, src = PStr s ∧ startswith_any s url_starts = true ∧
           a = Asset (S c) nm0 true PNone src 0) ∨
     (∃ s, src = PStr s ∧ startswith_any s url_starts = false ∧
           a = Asset (S c) nm0 false (PStr s) src 0) ∨
     (∃ cls f, src = PFunc cls f ∧ a = Asset (S c) nm0 false PNone src 0)))).
Proof.
  unfold Asset_init. destruct nm as [|nm| |]; [done| |done..]. cbv zeta.
  destruct (startswith_any nm url_starts) eqn:Hurl.
  - rewrite andb_true_l. destruct (is_None src) eqn:Hnone; [|done].
    cbn [negb].
    destruct (endswith_any (lower (split_last "/" (replace backslash "/" nm)))
                [".js"; ".css"]) eqn:Hend; [|done].
    cbn [negb]. destruct src; try done. rewrite Hurl.
    intros [= <- <-]. split; [done|]. exists nm.
    split_and!; [done..|]. by left.
  - rewrite andb_false_l.
    destruct (endswith_any (lower nm) [".js"; ".css"]) eqn:Hend; [|done].
    cbn [negb]. destruct src as [|src|z|cls f]; [done| |done|].
    + destruct (startswith_any src url_starts) eqn:Hsrc.
      * intros [= <- <-]. split; [done|]. exists nm.
        split_and!; [done..|]. right. split; [done|]. left. eauto.
      * destruct (startswith src "file://"); [done|].
        intros [= <- <-]. split; [done|]. exists nm.
        split_and!; [done..|]. right. split; [done|]. right. left. eauto.
    + intros [= <- <-]. split; [done|]. exists nm.
      split_and!; [done..|]. right. split; [done|]. right. right. eauto.
Qed.

(** X7. What [Asset.__init__] builds: the object has the next value of the
    counter, its source function was not called, [asset_ok] holds, and a
    remote asset has no content yet. *)
Theorem Asset_init_ok c nm src c' a :
  Asset_init c nm src = (c', Ok a) →
  c' = S c ∧ a_i a = S c ∧ a_calls a = 0 ∧ asset_ok a ∧
  (a_remote a = true → a_source_str a = PNone).
Proof.
  intros (-> & nm0 & -> & Hend & Hcases)%Asset_init_inv.
  unfold asset_ok. rewrite Hend.
  destruct Hcases as [(Hurl & _ & ->)|(Hurl & [(s & -> & Hs & ->)|
    [(s & -> & Hs & ->)|(cls & f & -> & ->)]])]; simpl;
    rewrite ?Hurl, ?Hs; done.
Qed.

(** X8. An asset built from a name that is a URL: no source was given, the
    source is the URL, the asset is remote, and the name is the end of the
    URL, with [/] for every backslash, after its last [/]; so the name has
    neither of the two characters. *)
Theorem Asset_init_url_name c url src c' a :
  startswith_any url url_starts = true →
  Asset_init c (PStr url) src = (c', Ok a) →
  is_None src = true ∧ a_source a = PStr url ∧ a_remote a = true ∧
  contains "/" (a_name a) = false ∧ contains backslash (a_name a) = false ∧
  ∃ pre, replace backslash "/" url = pre +:+ a_name a.
Proof.
  intros Hurl (_ & nm0 & [= <-] & _ & Hcases)%Asset_init_inv.
  destruct Hcases as [(_ & Hsrc & ->)|(Hno & _)]; [|congruence]. simpl.
  split_and!; [done..| | |].
  - apply split_last_spec.
  - destruct (split_last_spec "/" (replace backslash "/" url))
      as [_ [pre Hpre]].
    apply (contains_suffix _ pre). rewrite <-Hpre.
    by apply contains_replace.
  - apply split_last_spec.
Qed.

Section materialize_more.
Context (urlopen : string → outcome string).

Lemma to_string_held a v :
  a_source_str a = v → is_None v = false → to_string urlopen a = (a, Ok v).
Proof. unfold to_string. intros -> Hv. by destruct v. Qed.

Lemma to_string_times_held n a v :
  a_source_str a = v → is_None v = false →
  to_string_times urlopen n a = (a, replicate n (Ok v)).
Proof.
  intros Hs Hv. induction n as [|n IH]; [done|].
  simpl. by rewrite (to_string_held a v), IH.
Qed.

(** X13. An asset built from a text that is no URL holds the text: every
    [to_string] returns it and leaves the object as it is, and the network
    is not asked. *)
Theorem to_string_literal c nm src c' a n :
  Asset_init c nm (PStr src) = (c', Ok a) → a_remote a = false →
  to_string_times urlopen n a = (a, replicate n (Ok (PStr src))) ∧
  ∀ urlopen', to_string_times urlopen' n a = to_string_times urlopen n a.
Proof.
  intros (_ & nm0 & -> & _ & Hcases)%Asset_init_inv Hrem.
  assert (a_source_str a = PStr src) as Hs.
  { destruct Hcases as [(_ & ? & _)|(_ & [(s & _ & _ & ->)|
      [(s & [= <-] & _ & ->)|(cls & f & ? & _)]])]; done. }
  clear Hcases. split; [by apply to_string_times_held|].
  intros urlopen'. clear Hrem. revert a Hs.
  induction n as [|n IH]; intros a Hs; [done|]. simpl.
  unfold to_string. rewrite Hs. by rewrite (IH a Hs).
Qed.
End materialize_more.

(** X14. The first [to_string] of a remote asset asks the network for the
    source URL. A text that comes back is kept: every later [to_string]
    returns it, whatever the network gives by then. An error of the
    network is raised as it is and leaves the object without content, so
    that the next [to_string] asks again. *)
Theorem to_string_remote c nm src c' a :
  Asset_init c nm src = (c', Ok a) → a_remote a = true →
  ∃ url, a_source a = PStr url ∧ startswith_any url url_starts = true ∧
    (∀ urlopen s, urlopen url = Ok s →
       ∃ a', to_string urlopen a = (a', Ok (PStr s)) ∧
             ∀ urlopen' n,
               to_string_times urlopen' n a' = (a', replicate n (Ok (PStr s)))) ∧
    (∀ urlopen e, urlopen url = Raise e → to_string urlopen a = (a, Raise e)).
Proof.
  intros (_ & nm0 & -> & _ & Hcases)%Asset_init_inv Hrem.
  assert (∃ url nm1, startswith_any url url_starts = true ∧
            a = Asset (S c) nm1 true PNone (PStr url) 0)
    as (url & nm1 & Hurl & ->).
  { destruct Hcases as [(? & _ & ->)|(_ & [(s & -> & ? & ->)|
      [(s & _ & _ & ->)|(cls & f & _ & ->)]])]; by eauto. }
  exists url. split_and!; [done..| |].
  - intros urlopen s Hs. eexists. split.
    + unfold to_string, get_from_url.
      cbn [a_source_str a_source a_remote]. by rewrite Hurl, Hs.
    + intros urlopen' n. by apply to_string_times_held.
  - intros urlopen e He. unfold to_string, get_from_url.
    cbn [a_source_str a_source a_remote]. by rewrite Hurl, He.
Qed.

(** X15. A source function whose first result is neither text nor [None]: the
    first [to_string] raises the [ValueError], but the result is kept as
    the content, and every later [to_string] returns it and raises
    nothing. The function is called once. *)
Theorem to_string_keeps_non_text urlopen c nm cls f c' a :
  Asset_init c (PStr nm) (PFunc cls f) = (c', Ok a) →
  (∀ s, f 0 ≠ PStr s) → is_None (f 0) = false →
  ∃ a', to_string urlopen a
        = (a', Raise (Exn ValueError
             "Source function of asset %r did not return a str, but a %s."
             [a_name a; cls])) ∧
        a_calls a' = 1 ∧
        ∀ n, to_string_times urlopen n a' = (a', replicate n (Ok (f 0))).
Proof.
  intros (_ & nm0 & [= <-] & _ & Hcases)%Asset_init_inv Hf Hnone.
  assert (a = Asset (S c) nm false PNone (PFunc cls f) 0) as ->.
  { destruct Hcases as [(_ & ? & _)|(_ & [(s & ? & _)|
      [(s & ? & _)|(cls' & f' & [= <- <-] & ->)]])]; done. }
  exists (Asset (S c) nm false (f 0) (PFunc cls f) 1). split_and!.
  - unfold to_string. simpl. destruct (f 0) as [|s| |] eqn:Hf0; try done.
    by destruct (Hf s).
  - done.
  - intros n. by apply to_string_times_held.
Qed.

Lemma to_string_fields urlopen a :
  a_name (to_string urlopen a).1 = a_name a ∧
  a_source (to_string urlopen a).1 = a_source a ∧
  a_remote (to_string urlopen a).1 = a_remote a.
Proof.
  unfold to_string.
  repeat match goal with
    | |- context [match ?x with _ => _ end] => destruct x eqn:?
    end; cbn; split_and!; congruence.
Qed.

Lemma to_string_asset_ok urlopen a :
  asset_ok a → asset_ok (to_string urlopen a).1.
Proof.
  intros Hok. pose proof Hok as [Hend Hsrc].
  destruct (to_string_fields urlopen a) as (Hn & Hs & Hr).
  split; [by rewrite Hn|]. rewrite Hs, Hr.
  destruct (a_source a) as [|url| |cls f] eqn:Hsource; [done| |done..].
  destruct Hsrc as [Hrem Hlit]. split; [done|]. intros Hfalse.
  unfold to_string. rewrite (Hlit Hfalse). cbn. by apply Hlit.
Qed.


(** ** Tags *)

Lemma asset_ok_suffix a :
  asset_ok a →
  endswith (lower (a_name a)) ".js" = true ∨
  (endswith (lower (a_name a)) ".js" = false ∧
   endswith (lower (a_name a)) ".css" = true).
Proof.
  intros [Hend _]. unfold endswith_any in Hend. cbn [existsb] in Hend.
  destruct (endswith (lower (a_name a)) ".js"); [by left|right].
  by rewrite orb_false_l, orb_false_r in Hend.
Qed.

Section html_facts.
Context (urlopen : string → outcome string) (str_of : pyval → string).

(** X9. On an asset for which [asset_ok] holds, [to_html] never raises the
    [NameError] of its last branch, and [asset_ok] holds afterwards. *)
Theorem to_html_no_NameError a path link e :
  asset_ok a →
  asset_ok (to_html urlopen str_of a path link).1 ∧
  (to_html urlopen str_of a path link).2 ≠ RaiseMore e.
Proof.
  intros Hok. pose proof (to_string_asset_ok urlopen a Hok) as Hok'.
  unfold to_html.
  destruct (asset_ok_suffix a Hok) as [->|[-> ->]];
    destruct (a_remote a && bool_decide (link ∈ [1; 3]%Z)); [done| |done|];
    (destruct (bool_decide (link ∈ [0; 1]%Z)); [|done]);
    destruct (to_string urlopen a) as [a' [[|code| |]| |]]; done.
Qed.
End html_facts.

(** X10. Where [to_html] gives a reference (any [link] but 0, and not 1 on an
    asset that is not remote), it gives it without content: the object
    stays as it is, the source function is not called and the network is
    not asked. For a remote asset and [link] 1 or 3 the tag does not
    depend on [path] either. *)
Theorem to_html_reference str_of a path link :
  asset_ok a → link ≠ 0%Z → (link = 1%Z → a_remote a = true) →
  ∃ tag,
    (∀ urlopen, to_html urlopen str_of a path link = (a, Plain (Ok tag))) ∧
    (a_remote a = true → link = 1%Z ∨ link = 3%Z →
     ∀ urlopen path',
       to_html urlopen str_of a path' link = (a, Plain (Ok tag))).
Proof.
  intros Hok H0 H1. unfold to_html.
  assert (a_remote a = false → bool_decide (link ∈ [0; 1]%Z) = false) as Hno.
  { intros Hr. apply bool_decide_eq_false. rewrite !elem_of_cons, elem_of_nil.
    intros [Hl|[Hl|[]]]; [done|]. specialize (H1 Hl). congruence. }
  assert (a_remote a = true → link = 1%Z ∨ link = 3%Z →
          bool_decide (link ∈ [1; 3]%Z) = true) as Hyes.
  { intros _ Hl. apply bool_decide_eq_true. rewrite !elem_of_cons. tauto. }
  assert (bool_decide (link ∈ [1; 3]%Z) = false →
          bool_decide (link ∈ [0; 1]%Z) = false) as Hno'.
  { intros Hl%bool_decide_eq_false. apply bool_decide_eq_false.
    rewrite !elem_of_cons, elem_of_nil in *. intros [Hl'|[Hl'|[]]]; [done|].
    apply Hl. by left. }
  destruct (asset_ok_suffix a Hok) as [->|[-> ->]];
    destruct (a_remote a) eqn:Hr;
    destruct (bool_decide (link ∈ [1; 3]%Z)) eqn:H13; cbn [andb];
    rewrite ?(Hno eq_refl), ?(Hno' eq_refl);
    (eexists; split; [done|]); intros Hrem Hl; try done;
    by pose proof (Hyes eq_refl Hl).
Qed.

Section html_inline.
Context (urlopen : string → outcome string) (str_of : pyval → string).

(** X11. With [link] 0, or 1 on an asset that is not remote, [to_html] gets the
    content with [to_string], raises what [to_string] raises, and puts a
    text between the two parts of a [script] or [style] tag as it is, with
    a line feed on each side when the text has a line feed. The path is
    not used. *)
Theorem to_html_inline a path link :
  asset_ok a → link = 0%Z ∨ (link = 1%Z ∧ a_remote a = false) →
  let result := to_html urlopen str_of a path link in
  result.1 = (to_string urlopen a).1 ∧
  (∀ e, (to_string urlopen a).2 = Raise e → result.2 = Plain (Raise e)) ∧
  (∀ code, (to_string urlopen a).2 = Ok (PStr code) →
     let s := if contains newline code then String newline ""
              else "" in
     result.2 =
       Plain (Ok (if endswith (lower (a_name a)) ".js"
                  then ("<script id='" +:+ a_name a +:+ "'>")
                       +:+ s +:+ code +:+ s +:+ "</script>"
                  else ("<style id='" +:+ a_name a +:+ "'>")
                       +:+ s +:+ code +:+ s +:+ "</style>"))).
Proof.
  intros Hok Hlink. cbv zeta. unfold to_html.
  assert (a_remote a && bool_decide (link ∈ [1; 3]%Z) = false) as ->.
  { destruct Hlink as [->|[-> ->]]; [|done].
    rewrite bool_decide_eq_false_2; [by rewrite andb_false_r|].
    rewrite !elem_of_cons, elem_of_nil. naive_solver. }
  assert (bool_decide (link ∈ [0; 1]%Z) = true) as ->.
  { apply bool_decide_eq_true. rewrite !elem_of_cons. naive_solver. }
  destruct (asset_ok_suffix a Hok) as [->|[-> ->]];
    destruct (to_string urlopen a) as [a' [[|code| |]| |]]; cbn [fst snd];
    (split_and!; [done|by intros ? [= <-]|by intros ? [= <-]]).
Qed.
End html_inline.


(** ** More on bundles *)

Lemma Bundle_init_inv c nm c' b :
  Bundle_init c nm = (c', Ok b) →
  ∃ name a, nm = PStr name ∧ Asset_init c nm (PStr "") = (c', Ok a) ∧
    b = Bundle a [] (split_head "-" (rsplit1_head "." name)) [] ∅ false.
Proof.
  unfold Bundle_init.
  destruct (Asset_init c nm (PStr "")) as [c1 [a| |]] eqn:Hinit; [|done..].
  destruct nm as [|name| |]; [done| |done..]. intros [= <- <-]. eauto.
Qed.

(** X17. A new bundle: its name is no URL, it is not remote and its own content
    is the empty text, it holds nothing and needs no sort, and its
    namespace is a beginning of its name without [-]. *)
Theorem Bundle_init_new c nm c' b :
  Bundle_init c nm = (c', Ok b) →
  ∃ name, nm = PStr name ∧ b_name b = name ∧
    startswith_any name url_starts = false ∧
    a_remote (b_asset b) = false ∧ a_source_str (b_asset b) = PStr "" ∧
    b_assets b = [] ∧ b_modules b = [] ∧ b_deps b = ∅ ∧
    b_need_sort b = false ∧
    contains "-" (b_module_name b) = false ∧
    ∃ r, name = b_module_name b +:+ r.
Proof.
  intros (name & a & -> & Hinit & ->)%Bundle_init_inv. exists name.
  apply Asset_init_inv in Hinit as (_ & nm0 & [= <-] & _ & Hcases).
  destruct Hcases as [(_ & ? & _)|(Hurl & [(s & [= <-] & ? & _)|
    [(s & [= <-] & _ & ->)|(cls & f & ? & _)]])]; try done.
  unfold b_name. cbn. split_and!; [done..| |].
  - apply split_head_spec.
  - destruct (rsplit1_head_prefix "." name) as [r1 Hr1].
    destruct (split_head_spec "-" (rsplit1_head "." name)) as [_ [r2 Hr2]].
    exists (r2 +:+ r1). rewrite <-app_assoc_str, <-Hr2. done.
Qed.

(** X18. [add_module] ends in one of two ways. A module whose name does not
    start with the namespace is refused with the [ValueError]. Any other
    module is added at the end of the modules, the bundle then needs a
    sort, and no name leaves [deps]. *)
Theorem add_module_outcome b m :
  (startswith (i_name m) (b_module_name b) = false ∧
   add_module b m
   = Raise (Exn ValueError "Module %s does not belong in bundle %s."
              [i_name m; b_name b])) ∨
  (startswith (i_name m) (b_module_name b) = true ∧
   ∃ b', add_module b m = Ok b' ∧ b_asset b' = b_asset b ∧
         b_assets b' = b_assets b ∧ b_module_name b' = b_module_name b ∧
         b_modules b' = b_modules b ++ [m] ∧ b_need_sort b' = true ∧
         b_deps b ⊆ b_deps b').
Proof.
  unfold add_module.
  destruct (startswith (i_name m) (b_module_name b)) eqn:Hstart; cbn [negb].
  - right. split; [done|].
    destruct (expand_deps_spec (i_deps m) ∅) as (D & -> & HD).
    eexists. split; [done|]. cbn. split_and!; [done..|].
    intros x Hx. apply clear_deps_spec. by left.
  - by left.
Qed.

(** X19. A bundle does not depend on itself: its own name is never in [deps],
    and every name in [deps] ends with the extension of the bundle. *)
Theorem bundle_not_own_dep c nm c' b0 ms b :
  Bundle_init c nm = (c', Ok b0) → add_modules b0 ms = Ok b →
  (b_name b ∉ b_deps b) ∧ ∀ x, x ∈ b_deps b → ∃ p, x = p +:+ bundle_ext b.
Proof.
  intros (name & a & -> & Hinit & ->)%Bundle_init_inv
         (Ha & _ & _ & Hdeps)%add_modules_Ok.
  assert (b_name b = name) as Hname.
  { unfold b_name. rewrite Ha. cbn.
    apply Asset_init_inv in Hinit as (_ & nm0 & [= <-] & _ & Hcases).
    destruct Hcases as [(_ & ? & _)|(Hurl & [(s & [= <-] & ? & _)|
      [(s & [= <-] & _ & ->)|(cls & f & ? & _)]])]; done. }
  assert (bundle_ext b = String "." (lower (split_last "." name))) as Hext.
  { unfold bundle_ext. by rewrite Hname. }
  assert (bundle_ext (Bundle a [] (split_head "-" (rsplit1_head "." name)) []
                        ∅ false) = bundle_ext b) as Hext0.
  { unfold bundle_ext, b_name. by rewrite Ha. }
  cbn [b_deps b_module_name] in Hdeps. rewrite Hext0 in Hdeps.
  split.
  - rewrite Hname, Hdeps.
    intros [?%elem_of_empty|(m & dep & p & _ & _ & _ & Hns & Hp)]; [done|].
    apply Hns. left. rewrite Hext in Hp.
    assert (p = rsplit1_head "." name) as ->.
    { unfold rsplit1_head, split_last in *.
      destruct (rpartition "." name) as [[h l]|] eqn:Hrp.
      - apply rpartition_Some in Hrp as [Hn _]. rewrite Hn in Hp at 1.
        apply app_inj_length in Hp as [-> _]; [done|].
        simpl. by rewrite length_lower.
      - exfalso. apply (f_equal String.length) in Hp.
        rewrite length_app_str in Hp. simpl in Hp.
        rewrite length_lower in Hp. lia. }
    destruct (split_head_spec "-" (rsplit1_head "." name)) as [_ [r Hr]].
    by exists r.
  - intros x [?%elem_of_empty|(m & dep & p & _ & _ & _ & _ & ->)]%Hdeps;
      [done|]. by exists p.
Qed.

Lemma dep_edge_Permutation {T} (name : T → string) (deps : T → list string)
    l1 l2 a b :
  l1 ≡ₚ l2 → dep_edge name deps l1 a b → dep_edge name deps l2 a b.
Proof.
  intros Hp (t & Ht & Hn & Hb & Hin). exists t.
  split_and!; [by rewrite <-Hp|done..|by rewrite <-Hp].
Qed.

(** X20. For modules of pairwise distinct names without a dependency cycle,
    reading [modules] gives all of them, each after the modules it depends
    on, and keeps that list in the bundle. *)
Theorem modules_in_dependency_order b :
  b_need_sort b = true → NoDup (i_name <$> b_modules b) →
  acyclic i_name i_deps (b_modules b) →
  ∃ b' ms, modules b = (b', Ok ms) ∧ b_modules b' = ms ∧
    ms ≡ₚ b_modules b ∧
    ∀ p x d, ms !! p = Some x → d ∈ i_deps x →
      d ∈ i_name <$> b_modules b →
      ∃ q y, q < p ∧ ms !! q = Some y ∧ i_name y = d.
Proof.
  intros Hs Hnd Hacyc. unfold modules. rewrite Hs.
  set (seed := sorted_by_name (b_modules b)).
  assert (seed ≡ₚ b_modules b) as Hseed by apply sorted_by_name_Permutation.
  assert (acyclic i_name i_deps seed) as Hacyc'.
  { intros n Hn. apply (Hacyc n). eapply tc_mono; [|done].
    intros x y. by apply dep_edge_Permutation. }
  destruct (solve_dependencies_fuel_cases i_name i_deps (S (length seed))
              seed false)
    as [(w & names & out & Hsolve & _ & Hp & Hset & Hout)|(w & _ & n & Hn)];
    [lia|..].
  - unfold solve_dependencies. rewrite Hsolve. cbn [snd].
    eexists _, out. split_and!; [done..| |].
    + apply lookup_all_Ok, lookup_all_omap in Hout as ->.
      rewrite Hp, omap_thingmap; [done|]. by rewrite Hseed.
    + intros p x d Hx Hd HdN. rewrite <-Hseed, <-Hp in HdN.
      destruct (Forall2_lookup_r _ _ _ _ _ Hout Hx) as (n & Hn & Htx).
      destruct (Hset p) as (nm & t & Hnm & Ht & Hall);
        [by eapply lookup_lt_Some|].
      assert (nm = n) as -> by congruence. assert (t = x) as -> by congruence.
      apply index_is_Some in HdN as [q Hq].
      pose proof (Hall _ _ Hd Hq) as Hle. apply index_Some in Hq as [Hq _].
      destruct (Forall2_lookup_l _ _ _ _ _ Hout Hq) as (y & Hy & Hty).
      exists q, y.
      split_and!; [|done|by apply thingmap_lookup_Some in Hty as [_ ?]].
      destruct (decide (q = p)) as [->|]; [|lia].
      exfalso. assert (d = n) as -> by congruence.
      apply (Hacyc' n), tc_once. exists x.
      apply thingmap_lookup_Some in Htx as [??].
      split_and!; [done..|]. rewrite <-Hp. by eapply list_elem_of_lookup_2.
  - exfalso. apply (Hacyc' n). eapply tc_mono; [|done].
    intros x y. apply tm_edge_dep_edge.
Qed.

(** X21. For modules of pairwise distinct names with a dependency cycle through
    two of them, every read of [modules] raises the circular dependency
    error and leaves the bundle as it is. *)
Theorem modules_cycle b :
  b_need_sort b = true → NoDup (i_name <$> b_modules b) →
  has_cycle i_name i_deps (b_modules b) →
  modules b = (b, Raise circular).
Proof.
  intros Hs Hnd (x & y & Hxy & Hpxy & Hpyx). unfold modules. rewrite Hs.
  set (seed := sorted_by_name (b_modules b)).
  assert (seed ≡ₚ b_modules b) as Hseed by apply sorted_by_name_Permutation.
  assert (has_cycle i_name i_deps seed) as Hcyc.
  { exists x, y. split_and!; [done|..]; (eapply tc_mono; [|done]);
      intros ??; by apply dep_edge_Permutation. }
  destruct (solve_dependencies_fuel_cases i_name i_deps (S (length seed))
              seed false)
    as [(w & names & out & Hsolve & _)|(w & Hsolve & _)]; [lia|..].
  - exfalso.
    apply (solve_dependencies_Ok_no_cycle i_name i_deps seed false out);
      [by rewrite Hseed| |done].
    unfold solve_dependencies. by rewrite Hsolve.
  - unfold solve_dependencies. by rewrite Hsolve.
Qed.

(** ** The text of a bundle *)

Lemma in_order_app_l ps pre s : in_order ps s → in_order ps (pre +:+ s).
Proof.
  destruct ps as [|p ps]; [done|]. intros (pre' & rest & -> & Hrest).
  exists (pre +:+ pre'), rest. by rewrite app_assoc_str.
Qed.

Lemma join_cons sep x l :
  ∃ rest, join sep (x :: l) = x +:+ rest ∧
          ∀ ps, in_order ps (join sep l) → in_order ps rest.
Proof.
  destruct l as [|y l].
  - exists "". split; [by rewrite app_empty_r|done].
  - exists (sep +:+ join sep (y :: l)). split; [done|].
    intros ps. apply in_order_app_l.
Qed.

Lemma in_order_join sep ps l : sublist ps l → in_order ps (join sep l).
Proof.
  induction 1 as [|x ps l _ IH|x ps l _ IH]; [done|..];
    destruct (join_cons sep x l) as (rest & -> & Hrest).
  - exists "", rest. split; [done|]. by apply Hrest.
  - by apply in_order_app_l, Hrest.
Qed.

Lemma texts_fmap ss : texts (PStr <$> ss) = Some ss.
Proof.
  induction ss as [|s ss IH]; [done|]. rewrite fmap_cons. cbn [texts].
  by rewrite IH.
Qed.

Lemma center_head s :
  ∃ c r, center (String " " s) 70 "=" = String c r ∧ c ≠ "B"%char.
Proof.
  unfold center. destruct (decide _); [by eexists _, _|].
  destruct (Nat.div _ 2 + _) as [|k]; by eexists _, _.
Qed.

Lemma banner_not_contents name rest :
  startswith (banner name +:+ rest) "/* Bundle contents:" = false.
Proof.
  unfold banner. destruct (center_head (name +:+ " ")) as (c & r & Hc & HB).
  change (" " +:+ name +:+ " ") with (String " " (name +:+ " ")).
  rewrite Hc, !app_String, app_empty_l, !app_String. cbn.
  by destruct (decide ("B"%char = c)).
Qed.

Lemma join_banner_head sep name l :
  startswith (join sep (banner name :: l)) "/* Bundle contents:" = false.
Proof.
  destruct (join_cons sep (banner name) l) as (rest & -> & _).
  apply banner_not_contents.
Qed.

Lemma sublist_asset_part {A} (f : A → string) (refs : list A) contents :
  length refs = length contents →
  sublist contents (mjoin (zip_with (λ a c, [f a; c]) refs contents)).
Proof.
  revert contents. induction refs as [|a refs IH]; intros [|c contents] Hlen;
    simplify_eq/=; [constructor|].
  apply sublist_cons, sublist_skip, IH. done.
Qed.

Lemma sublist_module_part {A} (f g h : A → string) (ms : list A) :
  sublist (h <$> ms) (mjoin ((λ m, [f m; g m; h m]) <$> ms)).
Proof.
  induction ms as [|m ms IH]; [constructor|]. simpl.
  by apply sublist_cons, sublist_cons, sublist_skip.
Qed.

Lemma modules_cases b :
  (∃ ms, modules b = (Bundle (b_asset b) (b_assets b) (b_module_name b) ms
                             (b_deps b) (b_need_sort b), Ok ms)) ∨
  (∃ e, modules b = (b, Raise e)) ∨ modules b = (b, OutOfFuel).
Proof.
  unfold modules. destruct (b_need_sort b) eqn:Hs.
  - destruct (solve_dependencies i_name i_deps _ false).2 as [ms|e|];
      [left|right; left|right; right]; eauto.
  - left. exists (b_modules b). destruct b; simplify_eq/=. done.
Qed.

Lemma modules_result_ext b1 b2 :
  b_modules b1 = b_modules b2 → b_need_sort b1 = b_need_sort b2 →
  (modules b1).2 = (modules b2).2.
Proof.
  intros Hm Hs. unfold modules. rewrite Hm, Hs.
  destruct (b_need_sort b2); [|done].
  by destruct (solve_dependencies i_name i_deps _ false).2.
Qed.

(** With pairwise distinct names, what a read of [modules] gives and
    leaves is what the next read gives and leaves. *)
Lemma modules_settled b ms :
  NoDup (i_name <$> b_modules b) → (modules b).2 = Ok ms →
  let b' := Bundle (b_asset b) (b_assets b) (b_module_name b) ms (b_deps b)
                   (b_need_sort b) in
  modules b = (b', Ok ms) ∧ modules b' = (b', Ok ms).
Proof.
  intros Hnd Hms b'.
  assert (modules b = (b', Ok ms)) as Hb.
  { destruct (modules_cases b) as [(ms' & Hm)|[(e & Hm)|Hm]];
      rewrite Hm in Hms; simplify_eq/=. done. }
  split; [done|]. revert Hb. unfold modules at 1.
  destruct (b_need_sort b) eqn:Hs.
  - destruct (solve_dependencies i_name i_deps (sorted_by_name (b_modules b))
                false).2 as [ms'| |] eqn:Hsolve; [|done..].
    intros [= ->]. unfold modules, b'.
    cbn [b_need_sort b_modules b_asset b_assets b_module_name b_deps].
    assert (ms ≡ₚ sorted_by_name (b_modules b)) as Hp.
    { eapply solve_dependencies_Permutation; [|done].
      by rewrite sorted_by_name_Permutation. }
    rewrite (sorted_by_name_unique ms (b_modules b)).
    + by rewrite Hsolve.
    + by rewrite Hp, sorted_by_name_Permutation.
    + by rewrite Hp, sorted_by_name_Permutation.
  - intros [= <- <-]. unfold modules. by rewrite Hs.
Qed.

Lemma modules_Ok_no_cycle b ms :
  b_need_sort b = true → NoDup (i_name <$> b_modules b) →
  (modules b).2 = Ok ms → ¬ has_cycle i_name i_deps (b_modules b).
Proof.
  intros Hs Hnd. unfold modules. rewrite Hs.
  destruct (solve_dependencies i_name i_deps (sorted_by_name (b_modules b))
              false).2 as [ms'| |] eqn:Hsolve; [|done..].
  intros _ (x & y & Hxy & Hpxy & Hpyx).
  apply (solve_dependencies_Ok_no_cycle i_name i_deps
           (sorted_by_name (b_modules b)) false ms');
    [by rewrite sorted_by_name_Permutation|done|].
  exists x, y. split_and!; [done|..]; (eapply tc_mono; [|done]);
    intros ??; apply dep_edge_Permutation;
    by rewrite sorted_by_name_Permutation.
Qed.

Lemma sublist_pair {A} (l : list A) q p y x :
  q < p → l !! q = Some y → l !! p = Some x → sublist [y; x] l.
Proof.
  revert q p. induction l as [|a l IH]; intros q p Hqp Hq Hp; [done|].
  destruct p as [|p]; [lia|]. destruct q as [|q]; simplify_eq/=.
  - apply sublist_skip. apply list_elem_of_lookup_2 in Hp.
    clear IH. induction Hp; [apply sublist_skip, sublist_nil_l|].
    by apply sublist_cons.
  - apply sublist_cons. apply (IH q p); [lia|done..].
Qed.

(** The modules in the order of [modules]: a module stands after the
    modules it depends on. *)
Lemma modules_sublist b x y :
  b_need_sort b = true → NoDup (i_name <$> b_modules b) →
  acyclic i_name i_deps (b_modules b) →
  x ∈ b_modules b → y ∈ b_modules b → i_name y ∈ i_deps x →
  ∃ ms, (modules b).2 = Ok ms ∧ ms ≡ₚ b_modules b ∧ sublist [y; x] ms.
Proof.
  intros Hs Hnd Hacyc Hx Hy Hdep. unfold modules. rewrite Hs.
  set (seed := sorted_by_name (b_modules b)).
  assert (seed ≡ₚ b_modules b) as Hseed by apply sorted_by_name_Permutation.
  assert (acyclic i_name i_deps seed) as Hacyc'.
  { intros n Hn. apply (Hacyc n). eapply tc_mono; [|done].
    intros ??. by apply dep_edge_Permutation. }
  destruct (solve_dependencies_fuel_cases i_name i_deps (S (length seed))
              seed false)
    as [(w & names & out & Hsolve & _ & Hp & Hset & Hout)|(w & _ & n & Hn)];
    [lia|..].
  - unfold solve_dependencies. rewrite Hsolve. cbn [snd].
    assert (out ≡ₚ b_modules b) as Hperm.
    { apply lookup_all_Ok, lookup_all_omap in Hout as ->.
      rewrite Hp, omap_thingmap; [done|]. by rewrite Hseed. }
    exists out. split_and!; [done..|].
    assert (NoDup (i_name <$> out)) as Hndout by (by rewrite Hperm).
    rewrite <-Hperm in Hx, Hy.
    apply list_elem_of_lookup in Hx as [p Hpx].
    apply list_elem_of_lookup in Hy as [q Hqy].
    apply (sublist_pair out q p); [|done..].
    destruct (Forall2_lookup_r _ _ _ _ _ Hout Hpx) as (n & Hn & Htx).
    destruct (Hset p) as (nm & t & Hnm & Ht & Hall);
      [by eapply lookup_lt_Some|].
    assert (nm = n) as -> by congruence. assert (t = x) as -> by congruence.
    destruct (Forall2_lookup_r _ _ _ _ _ Hout Hqy) as (ny & Hny & Hty).
    apply thingmap_lookup_Some in Hty as [_ Hnamey].
    apply thingmap_lookup_Some in Htx as [Hxin Hnamex].
    assert (index (i_name y) names = Some q) as Hq.
    { subst ny. apply index_Some. split; [done|].
      intros j Hj Hlook.
      assert (NoDup names) as Hndn by (by rewrite Hp, Hseed).
      pose proof (NoDup_lookup _ _ _ _ Hndn Hlook Hny). lia. }
    pose proof (Hall _ _ Hdep Hq) as Hle.
    destruct (decide (q = p)) as [->|]; [|lia].
    exfalso. assert (i_name y = n) as Hyn by congruence.
    apply (Hacyc' n), tc_once. exists x.
    split_and!; [done..|by rewrite <-Hyn|].
    rewrite <-Hp. by eapply list_elem_of_lookup_2.
  - exfalso. apply (Hacyc' n). eapply tc_mono; [|done].
    intros ??. apply tm_edge_dep_edge.
Qed.

Section bundle_text_facts.
Context (urlopen : string → outcome string).
Context (get_js get_css : item → outcome string).

Lemma assets_to_string_Ok heap refs contents toc source :
  NoDup (a_i <$> refs) → (∀ r, r ∈ refs → heap !! a_i r = None) →
  Forall2 (λ a c, (to_string urlopen a).2 = Ok (PStr c)) refs contents →
  ∃ heap',
    assets_to_string urlopen heap refs toc source
    = (heap',
       Ok (toc ++ ((λ a, "- asset " +:+ a_name a) <$> refs),
           source ++ (PStr <$> mjoin (zip_with
                        (λ a c, [banner (a_name a); c]) refs contents)))) ∧
    (∀ r, r ∈ refs → heap' !! a_i r = Some (to_string urlopen r).1) ∧
    (∀ i, i ∉ a_i <$> refs → heap' !! i = heap !! i).
Proof.
  intros Hnd Hheap Hvs. revert heap toc source Hnd Hheap.
  induction Hvs as [|a c refs contents Hc _ IH];
    intros heap toc source Hnd Hheap.
  - exists heap. simpl. rewrite !app_nil_r.
    split_and!; [done| |done]. by intros r ?%elem_of_nil.
  - rewrite fmap_cons in Hnd. apply NoDup_cons in Hnd as [Ha Hnd].
    cbn [assets_to_string]. rewrite (Hheap a) by (apply elem_of_cons; by left).
    cbn [default]. destruct (to_string urlopen a) as [a' r] eqn:Hts.
    cbn in Hc. subst r.
    destruct (IH (<[a_i a := a']> heap)
                (toc ++ ["- asset " +:+ a_name a])
                ((source ++ [PStr (banner (a_name a))]) ++ [PStr c]) Hnd)
      as (heap' & -> & Hin & Hout).
    { intros r Hr. rewrite lookup_insert_ne.
      - apply Hheap, elem_of_cons. by right.
      - intros Heq. apply Ha. rewrite Heq. by apply list_elem_of_fmap_2. }
    exists heap'. split_and!.
    + by rewrite <-!app_assoc.
    + intros r [->|Hr]%elem_of_cons; [|by apply Hin].
      rewrite Hout by done. by rewrite lookup_insert_eq, Hts.
    + intros i Hi. rewrite fmap_cons, not_elem_of_cons in Hi.
      destruct Hi as [Hi1 Hi2]. rewrite Hout by done.
      by rewrite lookup_insert_ne.
Qed.

Lemma modules_to_string_Ok (isjs : bool) ms (src : item → string) toc source :
  (∀ m, m ∈ ms → (if isjs then get_js m else get_css m) = Ok (src m)) →
  modules_to_string get_js get_css isjs ms toc source
  = Ok (toc ++ ((λ m, "- module " +:+ i_name m) <$> ms),
        source ++ (PStr <$> mjoin ((λ m, [banner (i_name m); HEADER; src m])
                                     <$> ms))).
Proof.
  revert toc source. induction ms as [|m ms IH]; intros toc source Hsrc.
  - simpl. by rewrite !app_nil_r.
  - cbn [modules_to_string]. rewrite (Hsrc m) by (apply elem_of_cons; by left).
    rewrite IH by (intros ??; apply Hsrc, elem_of_cons; by right).
    by rewrite <-!app_assoc.
Qed.
End bundle_text_facts.

Section bundle_text_properties.
Context (urlopen : string → outcome string).
Context (get_js get_css : item → outcome string).

Lemma Bundle_to_string_Ok b contents ms (src : item → string) :
  NoDup (a_i <$> b_assets b) →
  Forall2 (λ a c, (to_string urlopen a).2 = Ok (PStr c))
          (b_assets b) contents →
  NoDup (i_name <$> b_modules b) →
  (modules b).2 = Ok ms →
  (∀ m, m ∈ ms →
     (if endswith (lower (b_name b)) ".js" then get_js m else get_css m)
     = Ok (src m)) →
  ∃ l,
    Bundle_to_string urlopen get_js get_css b
    = (Bundle (b_asset b) ((λ a, (to_string urlopen a).1) <$> b_assets b)
              (b_module_name b) ms (b_deps b) (b_need_sort b),
       Ok (join (String newline (String newline "")) l)) ∧
    sublist (contents ++ (src <$> ms)) l ∧
    startswith (join (String newline (String newline "")) l)
               "/* Bundle contents:"
    = bool_decide (1 < length (b_assets b) + length ms).
Proof.
  intros Hids Hcontents Hnd Hms Hsrc. unfold Bundle_to_string.
  destruct (assets_to_string_Ok urlopen ∅ (b_assets b) contents [] [] Hids)
    as (heap & -> & Hin & _); [done..|].
  assert ((λ r, default r (heap !! a_i r)) <$> b_assets b
          = (λ a, (to_string urlopen a).1) <$> b_assets b) as ->.
  { apply list_fmap_ext. intros i a Ha.
    by rewrite (Hin a) by (by eapply list_elem_of_lookup_2). }
  set (b1 := Bundle _ _ _ (b_modules b) _ _).
  assert ((modules b1).2 = Ok ms) as Hms1.
  { by rewrite (modules_result_ext b1 b). }
  destruct (modules_settled b1 ms Hnd Hms1) as [-> Hagain].
  cbn [b_asset b_assets b_module_name b_deps b_need_sort b1] in Hagain |- *.
  rewrite (modules_to_string_Ok get_js get_css _ ms src) by done.
  rewrite Hagain. cbn [b_assets].
  rewrite !app_nil_l, <-fmap_app, length_fmap.
  set (parts := mjoin (zip_with _ _ _) ++ mjoin _).
  assert (sublist (contents ++ (src <$> ms)) parts) as Hsub.
  { apply sublist_app.
    - apply sublist_asset_part. by eapply Forall2_length.
    - apply (sublist_module_part (λ m, banner (i_name m)) (λ _, HEADER)). }
  destruct (decide (1 < length (b_assets b) + length ms)) as [Hlen|Hlen].
  - rewrite bool_decide_eq_true_2 by done.
    unfold join_values. rewrite <-fmap_cons, texts_fmap.
    eexists. split_and!; [done|by apply sublist_cons|].
    match goal with
    | |- context [join ?sep (?x :: parts)] =>
        destruct (join_cons sep x parts) as (rest & Hjoin & _)
    end.
    rewrite Hjoin.
    apply startswith_spec. unfold contents_comment.
    eexists. by rewrite !app_assoc_str.
  - rewrite bool_decide_eq_false_2 by done.
    unfold join_values. rewrite texts_fmap.
    eexists. split_and!; [done..|].
    subst parts. clear Hsub Hin Hagain Hms1.
    destruct Hcontents as [|a c refs contents _ Hrest]; cbn [length] in Hlen.
    + destruct ms as [|m [|m' ms]]; cbn [length] in Hlen; [done| |lia].
      apply (join_banner_head _ (i_name m) [HEADER; src m]).
    + destruct Hrest; cbn [length] in Hlen; [|lia].
      destruct ms as [|m ms]; cbn [length] in Hlen; [|lia].
      apply (join_banner_head _ (a_name a) [c]).
Qed.


(** X24. The text of a bundle. When no asset stands twice in the bundle, every
    asset gives a text, the modules have pairwise distinct names and
    [modules] gives the list [ms], whose modules all give their code:
    [to_string] returns a text in which the texts of the assets stand in
    the order of the assets, followed by the code of the modules in the
    order of [ms], without overlap; it leaves every asset as its own
    [to_string] leaves it and [ms] as the modules; and the text starts with
    the table of contents exactly when assets and modules together are more
    than one. *)
Theorem Bundle_to_string_order b contents ms (src : item → string) :
  NoDup (a_i <$> b_assets b) →
  Forall2 (λ a c, (to_string urlopen a).2 = Ok (PStr c))
          (b_assets b) contents →
  NoDup (i_name <$> b_modules b) →
  (modules b).2 = Ok ms →
  (∀ m, m ∈ ms →
     (if endswith (lower (b_name b)) ".js" then get_js m else get_css m)
     = Ok (src m)) →
  ∃ out,
    Bundle_to_string urlopen get_js get_css b
    = (Bundle (b_asset b) ((λ a, (to_string urlopen a).1) <$> b_assets b)
              (b_module_name b) ms (b_deps b) (b_need_sort b), Ok out) ∧
    in_order (contents ++ (src <$> ms)) out ∧
    startswith out "/* Bundle contents:"
    = bool_decide (1 < length (b_assets b) + length ms).
Proof.
  intros Hids Hcontents Hnd Hms Hsrc.
  destruct (Bundle_to_string_Ok b contents ms src)
    as (l & -> & Hsub & Htoc); [done..|].
  eexists. split_and!; [done| |done]. by apply in_order_join.
Qed.

(** X25. In the text of a bundle the code of a module stands after the code of
    every module of the bundle it depends on, when the modules have
    pairwise distinct names and no dependency cycle (and no asset stands
    twice in the bundle, and assets and modules give their texts). *)
Theorem Bundle_to_string_dependencies b contents (src : item → string) x y :
  NoDup (a_i <$> b_assets b) →
  Forall2 (λ a c, (to_string urlopen a).2 = Ok (PStr c))
          (b_assets b) contents →
  b_need_sort b = true → NoDup (i_name <$> b_modules b) →
  acyclic i_name i_deps (b_modules b) →
  (∀ m, m ∈ b_modules b →
     (if endswith (lower (b_name b)) ".js" then get_js m else get_css m)
     = Ok (src m)) →
  x ∈ b_modules b → y ∈ b_modules b → i_name y ∈ i_deps x →
  ∃ out, (Bundle_to_string urlopen get_js get_css b).2 = Ok out ∧
         in_order [src y; src x] out.
Proof.
  intros Hids Hcontents Hs Hnd Hacyc Hsrc Hx Hy Hdep.
  destruct (modules_sublist b x y) as (ms & Hms & Hp & Hsub); [done..|].
  destruct (Bundle_to_string_Ok b contents ms src)
    as (l & -> & Hl & _); [done..| |].
  { intros m Hm. apply Hsrc. by rewrite <-Hp. }
  eexists. split; [done|]. apply in_order_join.
  etrans; [|done]. apply sublist_inserts_l.
  by apply (fmap_sublist src) in Hsub.
Qed.

(** X26. A bundle whose modules, of pairwise distinct names, have a dependency
    cycle through two of them has no text: [to_string] raises. *)
Theorem Bundle_to_string_cycle b out :
  b_need_sort b = true → NoDup (i_name <$> b_modules b) →
  has_cycle i_name i_deps (b_modules b) →
  (Bundle_to_string urlopen get_js get_css b).2 ≠ Ok out.
Proof.
  intros Hs Hnd Hcyc. unfold Bundle_to_string.
  destruct (assets_to_string urlopen ∅ (b_assets b) [] [])
    as [heap [[toc source]| |]]; [|done..].
  set (b1 := Bundle _ _ _ (b_modules b) _ _).
  destruct (modules b1) as [b2 [ms| |]] eqn:Hm; [|done..].
  exfalso. apply (modules_Ok_no_cycle b1 ms); [done..| |done].
  by rewrite Hm.
Qed.

(** X27. A bundle without assets and modules has the empty text, and
    [to_string] leaves it as it is. *)
Theorem Bundle_to_string_empty b :
  b_assets b = [] → b_modules b = [] →
  Bundle_to_string urlopen get_js get_css b = (b, Ok "").
Proof.
  destruct b as [a assets mn ms deps s]. cbn. intros -> ->.
  unfold Bundle_to_string. cbn [assets_to_string b_assets fmap list_fmap].
  by destruct s.
Qed.
End bundle_text_properties.

(** ** The runs of the further examples *)

Lemma solve_dependencies_names_witness :
  i_name <$> [Item "A" []; Item "B" ["A"]; Item "A" []]
    ≡ₚ i_name <$> items_dup ∧
  ∀ x, x ∈ [Item "A" []; Item "B" ["A"]; Item "A" []] →
    ∃ l1 l2, items_dup = l1 ++ x :: l2 ∧ (i_name x ∉ i_name <$> l2).
Proof.
  apply (solve_dependencies_names i_name i_deps items_dup true).
  vm_compute. reflexivity.
Defined.

Lemma solve_dependencies_ordered_witness : 0 ≤ 1.
Proof.
  apply (solve_dependencies_ordered i_name i_deps items_cab true
           [Item "a" []; Item "c" ["a"]; Item "b" ["a"]] 1
           (Item "c" ["a"]) "a" 0).
  - vm_compute. reflexivity.
  - reflexivity.
  - by_listing.
  - vm_compute. reflexivity.
Defined.

Lemma solve_dependencies_fails_iff_witness :
  (is_Ok (solve_items items_cycle true).2
   ↔ ¬ has_cycle i_name i_deps items_cycle) ∧
  ((solve_items items_cycle true).2 = Raise circular
   ↔ has_cycle i_name i_deps items_cycle).
Proof.
  apply (solve_dependencies_fails_iff i_name i_deps items_cycle true).
  apply (bool_decide_unpack _). vm_compute. exact I.
Defined.

Lemma items_acb_in_order i x d j :
  items_acb !! i = Some x → d ∈ i_deps x →
  index d (i_name <$> items_acb) = Some j → j ≤ i.
Proof.
  unfold items_acb. intros Hx Hd Hj.
  destruct i as [|[|[|i]]]; simplify_eq/=;
    rewrite ?elem_of_cons, ?elem_of_nil in Hd; destruct_or?; subst; try done;
    vm_compute in Hj; simplify_eq; lia.
Qed.

Lemma solve_dependencies_in_order_witness :
  (solve_items items_acb true).2 = Ok items_acb.
Proof.
  apply (solve_dependencies_in_order i_name i_deps items_acb true).
  - apply (bool_decide_unpack _). vm_compute. exact I.
  - exact items_acb_in_order.
Defined.

Lemma Asset_init_ok_witness :
  1 = 1 ∧ a_i asset_remote = 1 ∧ a_calls asset_remote = 0 ∧
  asset_ok asset_remote ∧
  (a_remote asset_remote = true → a_source_str asset_remote = PNone).
Proof.
  apply (Asset_init_ok 0 (PStr "https://example.com/x.js") PNone).
  vm_compute. reflexivity.
Defined.

Lemma Asset_init_url_name_witness :
  is_None PNone = true ∧
  a_source asset_remote = PStr "https://example.com/x.js" ∧
  a_remote asset_remote = true ∧
  contains "/" (a_name asset_remote) = false ∧
  contains backslash (a_name asset_remote) = false ∧
  ∃ pre, replace backslash "/" "https://example.com/x.js"
         = pre +:+ a_name asset_remote.
Proof.
  apply (Asset_init_url_name 0 "https://example.com/x.js" PNone 1).
  - vm_compute. reflexivity.
  - vm_compute. reflexivity.
Defined.

Lemma to_string_literal_witness :
  to_string_times no_network 3 asset_css
  = (asset_css, replicate 3 (Ok (PStr "body{}"))) ∧
  ∀ urlopen', to_string_times urlopen' 3 asset_css
              = to_string_times no_network 3 asset_css.
Proof.
  apply (to_string_literal no_network 0 (PStr "style.css") "body{}" 1).
  - vm_compute. reflexivity.
  - reflexivity.
Defined.

Lemma to_string_remote_witness :
  ∃ url, a_source asset_remote = PStr url ∧
    startswith_any url url_starts = true ∧
    (∀ urlopen s, urlopen url = Ok s →
       ∃ a', to_string urlopen asset_remote = (a', Ok (PStr s)) ∧
             ∀ urlopen' n,
               to_string_times urlopen' n a'
               = (a', replicate n (Ok (PStr s)))) ∧
    (∀ urlopen e, urlopen url = Raise e →
       to_string urlopen asset_remote = (asset_remote, Raise e)).
Proof.
  apply (to_string_remote 0 (PStr "https://example.com/x.js") PNone 1).
  - vm_compute. reflexivity.
  - reflexivity.
Defined.

Lemma to_string_keeps_non_text_witness :
  ∃ a', to_string no_network
          (Asset 1 "x.js" false PNone returns_int 0)
        = (a', Raise (Exn ValueError
             "Source function of asset %r did not return a str, but a %s."
             ["x.js"; "function"])) ∧
        a_calls a' = 1 ∧
        ∀ n, to_string_times no_network n a'
             = (a', replicate n (Ok (PInt 42))).
Proof.
  apply (to_string_keeps_non_text no_network 0 "x.js" "function"
           (λ _, PInt 42) 1).
  - vm_compute. reflexivity.
  - intros s. discriminate.
  - reflexivity.
Defined.

Lemma asset_remote_ok : asset_ok asset_remote.
Proof. split; vm_compute; done. Qed.

Lemma asset_css_ok : asset_ok asset_css.
Proof. split; vm_compute; done. Qed.


Lemma to_html_no_NameError_witness :
  asset_ok (to_html no_network str_none asset_css "{}" 0).1 ∧
  (to_html no_network str_none asset_css "{}" 0).2
  ≠ RaiseMore (NameError "Assets must be .js or .css").
Proof.
  apply (to_html_no_NameError no_network str_none asset_css "{}" 0).
  exact asset_css_ok.
Defined.

Lemma to_html_reference_witness :
  ∃ tag,
    (∀ urlopen,
       to_html urlopen str_none asset_remote "{}" 3
       = (asset_remote, Plain (Ok tag))) ∧
    (a_remote asset_remote = true → 3%Z = 1%Z ∨ 3%Z = 3%Z →
     ∀ urlopen path',
       to_html urlopen str_none asset_remote path' 3
       = (asset_remote, Plain (Ok tag))).
Proof.
  apply (to_html_reference str_none asset_remote "{}" 3).
  - exact asset_remote_ok.
  - lia.
  - lia.
Defined.

Lemma to_html_inline_witness :
  (to_html no_network str_none asset_css "{}" 0).2
  = Plain (Ok "<style id='style.css'>body{}</style>").
Proof.
  apply (proj2 (proj2 (to_html_inline no_network str_none asset_css "{}" 0
                         asset_css_ok (or_introl eq_refl))) "body{}").
  vm_compute. reflexivity.
Defined.


Lemma Bundle_init_new_witness :
  ∃ name, PStr "pkg-extra.js" = PStr name ∧ b_name bundle_new = name ∧
    startswith_any name url_starts = false ∧
    a_remote (b_asset bundle_new) = false ∧
    a_source_str (b_asset bundle_new) = PStr "" ∧
    b_assets bundle_new = [] ∧ b_modules bundle_new = [] ∧
    b_deps bundle_new = ∅ ∧ b_need_sort bundle_new = false ∧
    contains "-" (b_module_name bundle_new) = false ∧
    ∃ r, name = b_module_name bundle_new +:+ r.
Proof.
  apply (Bundle_init_new 0 (PStr "pkg-extra.js") 1 bundle_new).
  vm_compute. reflexivity.
Defined.

Lemma bundle_not_own_dep_witness :
  (b_name bundle_pkg_a ∉ b_deps bundle_pkg_a) ∧
  ∀ x, x ∈ b_deps bundle_pkg_a → ∃ p, x = p +:+ bundle_ext bundle_pkg_a.
Proof.
  apply (bundle_not_own_dep 0 (PStr "pkg.js") 1 bundle_pkg
           [Item "pkg.a" ["pkg.sub.b"; "other.x"]] bundle_pkg_a).
  - vm_compute. reflexivity.
  - vm_compute. reflexivity.
Defined.

Lemma bundle_ba_acyclic : acyclic i_name i_deps (b_modules bundle_ba).
Proof.
  apply (acyclic_rank _ _ _ (λ n, if decide (n = "pkg.b") then 1 else 0)).
  intros a b (t & Ht & <- & Hb & _). cbn in Ht.
  rewrite !elem_of_cons, elem_of_nil in Ht.
  destruct Ht as [->|[->|[]]]; simpl in Hb;
    rewrite ?elem_of_cons, ?elem_of_nil in Hb; destruct_or?; subst; try done;
    simpl; lia.
Qed.

Lemma modules_in_dependency_order_witness :
  ∃ b' ms, modules bundle_ba = (b', Ok ms) ∧ b_modules b' = ms ∧
    ms ≡ₚ b_modules bundle_ba ∧
    ∀ p x d, ms !! p = Some x → d ∈ i_deps x →
      d ∈ i_name <$> b_modules bundle_ba →
      ∃ q y, q < p ∧ ms !! q = Some y ∧ i_name y = d.
Proof.
  apply (modules_in_dependency_order bundle_ba).
  - reflexivity.
  - apply (bool_decide_unpack _). vm_compute. exact I.
  - exact bundle_ba_acyclic.
Defined.

Lemma bundle_cycle_has_cycle :
  has_cycle i_name i_deps (b_modules bundle_cycle).
Proof.
  exists "pkg.a", "pkg.b". split_and!; [done|..]; apply tc_once; cbn.
  - dep_edge_of (Item "pkg.a" ["pkg.b"]).
  - dep_edge_of (Item "pkg.b" ["pkg.a"]).
Qed.

Lemma modules_cycle_witness :
  modules bundle_cycle = (bundle_cycle, Raise circular).
Proof.
  apply (modules_cycle bundle_cycle).
  - reflexivity.
  - apply (bool_decide_unpack _). vm_compute. exact I.
  - exact bundle_cycle_has_cycle.
Defined.

Lemma modules_order_independent_witness :
  (modules bundle_ba).2 = (modules bundle_ab).2.
Proof.
  apply (modules_order_independent bundle_ba bundle_ab).
  - reflexivity.
  - reflexivity.
  - apply Permutation_swap.
  - apply (bool_decide_unpack _). vm_compute. exact I.
Defined.

Lemma modules_read_again_witness :
  modules bundle_ab = (bundle_ab, Ok (b_modules bundle_ab)).
Proof.
  apply (modules_read_again bundle_ba bundle_ab (b_modules bundle_ab)).
  - reflexivity.
  - apply (bool_decide_unpack _). vm_compute. exact I.
  - vm_compute. reflexivity.
Defined.

Lemma Bundle_to_string_order_witness :
  ∃ out,
    Bundle_to_string no_network code_of code_of bundle_text
    = (Bundle (b_asset bundle_text)
              ((λ a, (to_string no_network a).1) <$> b_assets bundle_text)
              (b_module_name bundle_text)
              [Item "pkg.a" []; Item "pkg.b" ["pkg.a"]]
              (b_deps bundle_text) (b_need_sort bundle_text), Ok out) ∧
    in_order (["body{}"] ++ ((λ m, "// " +:+ i_name m)
                <$> [Item "pkg.a" []; Item "pkg.b" ["pkg.a"]])) out ∧
    startswith out "/* Bundle contents:"
    = bool_decide (1 < length (b_assets bundle_text)
                       + length [Item "pkg.a" []; Item "pkg.b" ["pkg.a"]]).
Proof.
  apply (Bundle_to_string_order no_network code_of code_of bundle_text
           ["body{}"] [Item "pkg.a" []; Item "pkg.b" ["pkg.a"]]
           (λ m, "// " +:+ i_name m)).
  - apply (bool_decide_unpack _). vm_compute. exact I.
  - repeat constructor.
  - apply (bool_decide_unpack _). vm_compute. exact I.
  - vm_compute. reflexivity.
  - intros m _. reflexivity.
Defined.

Lemma Bundle_to_string_dependencies_witness :
  ∃ out, (Bundle_to_string no_network code_of code_of bundle_text).2 = Ok out ∧
         in_order ["// pkg.a"; "// pkg.b"] out.
Proof.
  apply (Bundle_to_string_dependencies no_network code_of code_of bundle_text
           ["body{}"] (λ m, "// " +:+ i_name m)
           (Item "pkg.b" ["pkg.a"]) (Item "pkg.a" [])).
  - apply (bool_decide_unpack _). vm_compute. exact I.
  - repeat constructor.
  - reflexivity.
  - apply (bool_decide_unpack _). vm_compute. exact I.
  - exact bundle_ba_acyclic.
  - intros m _. reflexivity.
  - by_listing.
  - by_listing.
  - by_listing.
Defined.

Lemma Bundle_to_string_cycle_witness :
  (Bundle_to_string no_network code_of code_of bundle_cycle).2 ≠ Ok "".
Proof.
  apply (Bundle_to_string_cycle no_network code_of code_of bundle_cycle "").
  - reflexivity.
  - apply (bool_decide_unpack _). vm_compute. exact I.
  - exact bundle_cycle_has_cycle.
Defined.

Lemma Bundle_to_string_empty_witness :
  Bundle_to_string no_network code_of code_of bundle_new
  = (bundle_new, Ok "").
Proof.
  apply (Bundle_to_string_empty no_network code_of code_of bundle_new);
    reflexivity.
Defined.
